(** * Node containers (tsuru, provision/docker/nodecontainer)

    A shallow embedding of [nodecontainer.go] and the properties of its
    registry, image resolver, puller, lifecycle manager, recreate
    orchestrator and cluster hook.

    Go strings are byte sequences and are modelled by [string]; Go's
    [int] is modelled by [Z]; a [map[string]string] by [gmap string string];
    an [error] value by the inductive type [error], [nil] being [None]. *)

From Stdlib Require Import ZArith Ascii String List Lia.
From stdpp Require Import base option list strings gmap.

Local Open Scope string_scope.
Local Open Scope list_scope.

(** ** The parts of Go's [strings] package that the code uses *)

Module GoStrings.

(** [strings.Contains(s, string(c))]. *)
Fixpoint ContainsByte (s : string) (c : ascii) : bool :=
  match s with
  | EmptyString => false
  | String a s' => if Ascii.eqb a c then true else ContainsByte s' c
  end.

(** [strings.Cut(s, string(sep))]: the text before and after the first
    occurrence of [sep], which is how [SplitN] finds its next piece
    ([Index] followed by two slices). *)
Fixpoint Cut (s : string) (sep : ascii) : option (string * string) :=
  match s with
  | EmptyString => None
  | String a s' =>
      if Ascii.eqb a sep then Some (EmptyString, s')
      else match Cut s' sep with
           | Some (before, after) => Some (String a before, after)
           | None => None
           end
  end.

(** [strings.SplitN(s, string(sep), n)] for [n >= 0]: at most [n]
    pieces, the last one being the unsplit remainder; [n = 0] gives
    the nil slice.  Every call of the package passes a one-byte
    separator and a positive literal [n]. *)
Fixpoint SplitN (s : string) (sep : ascii) (n : nat) : list string :=
  match n with
  | O => []
  | S n' =>
      match n' with
      | O => [s]
      | S _ =>
          match Cut s sep with
          | None => [s]
          | Some (before, after) => before :: SplitN after sep n'
          end
      end
  end.

(** [strings.Join(elems, sep)]. *)
Fixpoint Join (elems : list string) (sep : string) : string :=
  match elems with
  | [] => EmptyString
  | [e] => e
  | e :: rest => e +:+ sep +:+ Join rest sep
  end.

End GoStrings.
Import GoStrings.

(** ** Errors

    The error values the package creates or tells apart: its own
    [ValidationErr], the two conditions of the container engine's client
    that [create] absorbs, and errors made by [errors.New] / [fmt.Errorf]
    or coming from a collaborator. *)

Inductive error : Type :=
| ValidationErr (message : string)
| ErrContainerAlreadyExists
| ContainerAlreadyRunning (ID : string)
| ErrorString (text : string).

#[global] Instance error_eq_dec : EqDecision error.
Proof. solve_decision. Defined.

Definition Error (e : error) : string :=
  match e with
  | ValidationErr message => message
  | ErrContainerAlreadyExists => "container already exists"
  | ContainerAlreadyRunning ID => "Container already running: " +:+ ID
  | ErrorString text => text
  end.

(** ** Data model *)

(** The fields of [docker.Config] and [docker.HostConfig] that the
    package reads or writes, and two that it only passes on. *)
Record Config := mkConfig {
  Image : string;
  Env : list string;
  Cmd : list string
}.

Record HostConfig := mkHostConfig {
  Binds : list string;
  NetworkMode : string;
  Privileged : bool
}.

Record NodeContainerConfig := mkNodeContainerConfig {
  Name : string;
  PinnedImage : string;
  Config_ : Config;
  HostConfig_ : HostConfig
}.

Record NodeContainerConfigGroup := mkNodeContainerConfigGroup {
  GroupName : string;
  ConfigPools : gmap string NodeContainerConfig
}.

(** [cluster.Node]. *)
Record Node := mkNode {
  Address : string;
  Metadata : gmap string string
}.

#[global] Instance Config_eq_dec : EqDecision Config.
Proof. solve_decision. Defined.
#[global] Instance HostConfig_eq_dec : EqDecision HostConfig.
Proof. solve_decision. Defined.
#[global] Instance NodeContainerConfig_eq_dec : EqDecision NodeContainerConfig.
Proof. solve_decision. Defined.

Definition set_PinnedImage (c : NodeContainerConfig) (v : string) : NodeContainerConfig :=
  mkNodeContainerConfig (Name c) v (Config_ c) (HostConfig_ c).

Definition set_Image (c : NodeContainerConfig) (v : string) : NodeContainerConfig :=
  mkNodeContainerConfig (Name c) (PinnedImage c)
    (mkConfig v (Env (Config_ c)) (Cmd (Config_ c))) (HostConfig_ c).

Definition set_Env (c : NodeContainerConfig) (v : list string) : NodeContainerConfig :=
  mkNodeContainerConfig (Name c) (PinnedImage c)
    (mkConfig (Image (Config_ c)) v (Cmd (Config_ c))) (HostConfig_ c).

(** ** Pure functions of the package *)

Definition nodeContainerCollection : string := "nodeContainer".

(** [(c *NodeContainerConfig) validate(pool)]. *)
Definition validate (c : NodeContainerConfig) (pool : string) : option error :=
  if decide (Name c = "") then
    Some (ValidationErr "node container config name cannot be empty")
  else if decide (Image (Config_ c) ≠ "" ∧ pool ≠ "") then
    Some (ValidationErr
      "it's not possible to override image in pool, please set image as a default value")
  else None.

(** [(c *NodeContainerConfig) image()]. *)
Definition image (c : NodeContainerConfig) : string :=
  if decide (PinnedImage c ≠ "") then PinnedImage c else Image (Config_ c).

(** [shouldPinImage(image)].  Indexing a slice out of range panics:
    [None]. *)
Definition shouldPinImage_checked (image : string) : option bool :=
  let parts := SplitN image "/" 3 in
  match parts !! (length parts - 1)%nat with
  | None => None
  | Some lastPart =>
      let versionParts := SplitN lastPart ":" 2 in
      if decide (length versionParts < 2)%nat then Some true
      else match versionParts !! 1%nat with
           | None => None
           | Some version => Some (bool_decide (version = "latest"))
           end
  end.

Definition shouldPinImage (image : string) : bool :=
  default false (shouldPinImage_checked image).

(** [(c *NodeContainerConfig) EnvMap()].  [parts[1]] is read without a
    look at [len(parts)]; the index panic is [None]. *)
Fixpoint EnvMap_range (env : list string) (envMap : gmap string string)
  : option (gmap string string) :=
  match env with
  | [] => Some envMap
  | e :: rest =>
      let parts := SplitN e "=" 2 in
      match parts !! 0%nat, parts !! 1%nat with
      | Some k, Some v => EnvMap_range rest (<[k := v]> envMap)
      | _, _ => None
      end
  end.

Definition EnvMap (c : NodeContainerConfig) : option (gmap string string) :=
  EnvMap_range (Env (Config_ c)) ∅.

(** ** Collaborators: the configuration store and the container engine

    Both are outside the package.  A run of the package's sequential code
    is a function of the log of calls made so far: every call is appended
    to the log and answered by the collaborators, whose answer may depend
    on everything that happened before. *)

(** [docker.AuthConfiguration], passed through unexamined. *)
Record AuthConfiguration := mkAuth {
  Username : string;
  Password : string;
  ServerAddress : string
}.

(** A [*scopedconfig.ScopedConfig] as [configFor] sets it up. *)
Record ScopedConfig := mkScopedConfig {
  conf_collection : string;
  conf_name : string;
  Jsonfy : bool;
  SliceAdd : bool;
  AllowMapEmpty : bool
}.

Inductive call : Type :=
| NewClient (endpoint : string)
| PullImage (Repository : string) (auth : AuthConfiguration)
| CreateContainer (name : string) (hostConfig : HostConfig) (config : Config)
| RemoveContainerOptions (ID : string) (Force : bool)
| StartContainer (name : string) (hostConfig : HostConfig)
| Save (conf : ScopedConfig) (pool : string) (doc : NodeContainerConfig)
| SaveMerge (conf : ScopedConfig) (pool : string) (doc : NodeContainerConfig)
| Remove (conf : ScopedConfig) (pool : string)
| SetField (conf : ScopedConfig) (pool field value : string).

(** What a collaborator hands back: an error or [nil], and for a pull the
    bytes written to the output stream. *)
Record reply := mkReply {
  reply_err : option error;
  reply_out : string
}.

Class Collaborators := {
  (** the store and the engine, by the log of earlier calls *)
  answer : list call → call → reply;
  (** [fix.GetImageDigest], a function of another package of the
      repository *)
  GetImageDigest : string → string * option error
}.

(** [DockerProvisioner], as far as the package uses it. *)
Record DockerProvisioner := mkProvisioner {
  RegistryAuthConfig : AuthConfiguration
}.

Definition M (A : Type) : Type := list call → A * list call.

#[global] Instance M_ret : MRet M := λ A a log, (a, log).
#[global] Instance M_bind : MBind M := λ A B f m log,
  let '(a, log') := m log in f a log'.

Definition invoke `{Collaborators} (c : call) : M reply :=
  λ log, (answer log c, log ++ [c]).

(** [configFor(name)]. *)
Definition configFor (name : string) : ScopedConfig :=
  mkScopedConfig nodeContainerCollection name true true true.

(** [dockerClient(endpoint)]: the client, or the error of [docker.NewClient]. *)
Definition dockerClient `{Collaborators} (endpoint : string) : M (option error) :=
  client ← invoke (NewClient endpoint); mret (reply_err client).

Section Sequential.
Context `{Collaborators}.

(** *** Registry *)

(** [AddNewContainer(pool, c)]: [configFor(c.Name).Save(pool, c)] after
    validation. *)
Definition AddNewContainer (pool : string) (c : NodeContainerConfig) : M (option error) :=
  match validate c pool with
  | Some err => mret (Some err)
  | None =>
      let conf := configFor (Name c) in
      r ← invoke (Save conf pool c); mret (reply_err r)
  end.

(** [UpdateContainer(pool, c)]. *)
Definition UpdateContainer (pool : string) (c : NodeContainerConfig) : M (option error) :=
  match validate c pool with
  | Some err => mret (Some err)
  | None =>
      let conf := configFor (Name c) in
      r ← invoke (SaveMerge conf pool c); mret (reply_err r)
  end.

(** [RemoveContainer(pool, name)]. *)
Definition RemoveContainer (pool name : string) : M (option error) :=
  let conf := configFor name in
  r ← invoke (Remove conf pool); mret (reply_err r).

(** [(c *NodeContainerConfig) ResetImage()]. *)
Definition ResetImage (c : NodeContainerConfig) : M (option error) :=
  let conf := configFor (Name c) in
  r ← invoke (SetField conf "" "PinnedImage" ""); mret (reply_err r).

(** *** Puller *)

(** The loop of [pullWithRetry]: [tries] iterations are left, [buf] is
    the output buffer shared by all attempts, [err] the error of the
    attempt before. *)
Fixpoint pullWithRetry_loop (tries : nat) (image : string)
    (registryAuth : AuthConfiguration) (buf : string) (err : option error)
  : M (string * option error) :=
  match tries with
  | O => mret ("", err)
  | S tries' =>
      r ← invoke (PullImage image registryAuth);
      let buf := buf +:+ reply_out r in
      match reply_err r with
      | None => mret (buf, None)
      | Some e => pullWithRetry_loop tries' image registryAuth buf (Some e)
      end
  end.

(** [pullWithRetry(client, p, image, maxTries)]: the loop runs while
    [maxTries > 0] and counts down, that is [Z.to_nat maxTries] times. *)
Definition pullWithRetry (p : DockerProvisioner) (image : string) (maxTries : Z)
  : M (string * option error) :=
  pullWithRetry_loop (Z.to_nat maxTries) image (RegistryAuthConfig p) "" None.

(** *** Image resolver *)

(** [(c *NodeContainerConfig) pullImage(client, p)]: the configuration
    as the call leaves it, the image, and the error. *)
Definition pullImage (c : NodeContainerConfig) (p : DockerProvisioner)
  : M (NodeContainerConfig * string * option error) :=
  let image := image c in
  '(output, err) ← pullWithRetry p image 3;
  match err with
  | Some e => mret (c, "", Some e)
  | None =>
      if shouldPinImage image then
        let '(digest, _) := GetImageDigest output in
        let pinnedImage :=
          if decide (digest ≠ "") then image +:+ "@" +:+ digest else "" in
        if decide (pinnedImage ≠ image) then
          let conf := configFor (Name c) in
          r ← invoke (SetField conf "" "PinnedImage" pinnedImage);
          mret (set_PinnedImage c pinnedImage, image, reply_err r)
        else mret (c, image, None)
      else mret (c, image, None)
  end.

(** *** Lifecycle manager *)

(** The last lines of [create]: an error of [StartContainer] that is a
    [*docker.ContainerAlreadyRunning] becomes [nil]. *)
Definition start_result (err : option error) : option error :=
  match err with
  | Some (ContainerAlreadyRunning _) => None
  | _ => err
  end.

(** [(c *NodeContainerConfig) create(dockerEndpoint, poolName, p, relaunch)]:
    the configuration as the call leaves it, and the error. *)
Definition create (c : NodeContainerConfig) (dockerEndpoint poolName : string)
    (p : DockerProvisioner) (relaunch : bool)
  : M (NodeContainerConfig * option error) :=
  err ← dockerClient dockerEndpoint;
  match err with
  | Some e => mret (c, Some e)
  | None =>
      '(c, img, err) ← pullImage c p;
      let c := set_Image c img in
      match err with
      | Some e => mret (c, Some e)
      | None =>
          let c := set_Env c (("DOCKER_ENDPOINT=" +:+ dockerEndpoint) :: Env (Config_ c)) in
          let opts := CreateContainer (Name c) (HostConfig_ c) (Config_ c) in
          r ← invoke opts;
          let start :=
            s ← invoke (StartContainer (Name c) (HostConfig_ c));
            mret (c, start_result (reply_err s)) in
          let after_create (err : option error) : M (NodeContainerConfig * option error) :=
            match err with
            | Some e =>
                if decide (e ≠ ErrContainerAlreadyExists) then mret (c, Some e)
                else start
            | None => start
            end in
          if relaunch && bool_decide (reply_err r = Some ErrContainerAlreadyExists) then
            rm ← invoke (RemoveContainerOptions (Name c) true);
            match reply_err rm with
            | Some e => mret (c, Some e)
            | None => r2 ← invoke opts; after_create (reply_err r2)
            end
          else after_create (reply_err r)
      end
  end.

End Sequential.

(** ** Recreate orchestrator

    [ensureContainersStarted] starts one goroutine per node, each of which
    starts one goroutine per configuration name; they meet the caller at a
    [sync.WaitGroup] and hand their errors over through the buffered
    channel [errChan], which has room for [len(nodes)] errors and is read
    only after [wg.Wait()] has returned.  The model is an interleaving
    semantics: a state, and a step function that runs the goroutine the
    scheduler picks. *)

(** A value and a [nil] error, or an error. *)
Inductive result (A : Type) : Type :=
| Ok (a : A)
| Failed (e : error).
Arguments Ok {A} a.
Arguments Failed {A} e.

(** What the orchestrator's surroundings answer.  A call made by a unit
    carries the position of its node and of its configuration name, so
    that two units may be answered differently. *)
Record World := mkWorld {
  (** [scopedconfig.FindAllScopedConfigNames(collection)] *)
  FindAllScopedConfigNames : string → result (list string);
  (** [p.Cluster().UnfilteredNodes()] *)
  UnfilteredNodes : result (list Node);
  (** [LoadNodeContainer(pool, name)] as called by unit [(i, j)]: the
      store's pool-resolved read *)
  LoadNodeContainer : nat → nat → string → string → result NodeContainerConfig;
  (** the store and the engine as [create] of unit [(i, j)] meets them *)
  unit_collaborators : nat → nat → Collaborators;
  (** [InitializeBS()], a function of another file of the package: its
      error *)
  InitializeBS : option error
}.

Inductive goroutine : Type :=
| NodeLoop (i j : nat)     (* the goroutine of [nodes[i]], at [confNames[j]] *)
| Unit (i j : nat)         (* [recreateContainer(&nodes[i], confNames[j])], not yet run *)
| Sending (e : error).     (* [recreateContainer] at [errChan <- e] *)

Inductive main_pc : Type :=
| Spawning (i : nat)       (* the [for i := range nodes] loop, then [wg.Wait()] *)
| Returned (r : option error).

Record state := mkState {
  main : main_pc;
  goroutines : list goroutine;
  wg : nat;
  errChan : list error
}.

(** The scheduler's choice: the caller, or the goroutine at a position of
    the pool. *)
Inductive pick : Type :=
| PickMain
| PickGoroutine (k : nat).

(** The lines after [close(errChan)]. *)
Definition collect (errs : list error) : option error :=
  let allErrors := Error <$> errs in
  if decide (length allErrors = 0)%nat then None
  else Some (ErrorString ("multiple errors: " +:+ Join allErrors ", ")).

Section Orchestrator.
Variables (world : World) (p : DockerProvisioner) (relaunch : bool).
Variables (nodes : list Node) (confNames : list string).

(** The body of [recreateContainer] up to its send: the error the unit
    puts on [errChan], if any. *)
Definition recreateContainer (i j : nat) : option error :=
  match nodes !! i, confNames !! j with
  | Some node, Some confName =>
      let pool := default "" (Metadata node !! "pool") in
      match LoadNodeContainer world i j pool confName with
      | Failed confErr => Some confErr
      | Ok containerConfig =>
          let '(_, confErr, _) :=
            create (H := unit_collaborators world i j)
              containerConfig (Address node) pool p relaunch [] in
          match confErr with
          | Some confErr =>
              Some (ErrorString
                ("[node containers] failed to create container in " +:+ Address node
                 +:+ " [" +:+ pool +:+ "]: " +:+ Error confErr))
          | None => None
          end
      end
  | _, _ => None
  end.

(** [errChan := make(chan error, len(nodes))]. *)
Definition errChan_cap : nat := length nodes.

Definition initial : state := mkState (Spawning 0) [] 0 [].

(** [wg.Done()] of a goroutine that ends; a counter below zero panics. *)
Definition done (rest : list goroutine) (ch : list error) (s : state) : option state :=
  match wg s with
  | O => None
  | S n => Some (mkState (main s) rest n ch)
  end.

Definition step (pk : pick) (s : state) : option state :=
  match pk with
  | PickMain =>
      match main s with
      | Spawning i =>
          if decide (i < length nodes)%nat then
            Some (mkState (Spawning (S i)) (goroutines s ++ [NodeLoop i 0])
                          (S (wg s)) (errChan s))
          else
            match wg s with
            | O => Some (mkState (Returned (collect (errChan s))) (goroutines s) 0 [])
            | S _ => None
            end
      | Returned _ => None
      end
  | PickGoroutine k =>
      match goroutines s !! k with
      | None => None
      | Some g =>
          let rest := delete k (goroutines s) in
          match g with
          | NodeLoop i j =>
              if decide (j < length confNames)%nat then
                Some (mkState (main s) (rest ++ [NodeLoop i (S j); Unit i j])
                              (S (wg s)) (errChan s))
              else done rest (errChan s) s
          | Unit i j =>
              match recreateContainer i j with
              | Some e => Some (mkState (main s) (rest ++ [Sending e]) (wg s) (errChan s))
              | None => done rest (errChan s) s
              end
          | Sending e =>
              if decide (length (errChan s) < errChan_cap)%nat then
                done rest (errChan s ++ [e]) s
              else None
          end
      end
  end.

(** A schedule is run from left to right; a pick that cannot move (a
    blocked goroutine, an empty slot) ends the run without a state. *)
Fixpoint run (sched : list pick) (s : state) : option state :=
  match sched with
  | [] => Some s
  | pk :: sched' =>
      match step pk s with
      | Some s' => run sched' s'
      | None => None
      end
  end.

End Orchestrator.

(** [ensureContainersStarted(p, w, relaunch, nodes...)] under a schedule:
    [Some r] when the call has returned [r] once the schedule is used up,
    [None] when it has not.  The writer [w] and the debug log are written
    and never read, they are left out. *)
Definition ensureContainersStarted (sched : list pick) (world : World)
    (p : DockerProvisioner) (relaunch : bool) (nodes : list Node)
  : option (option error) :=
  match FindAllScopedConfigNames world nodeContainerCollection with
  | Failed err => Some (Some err)
  | Ok confNames =>
      match (if decide (length nodes = 0)%nat then UnfilteredNodes world else Ok nodes) with
      | Failed err => Some (Some err)
      | Ok nodes =>
          match run world p relaunch nodes confNames sched initial with
          | Some s => match main s with Returned r => Some r | Spawning _ => None end
          | None => None
          end
      end
  end.

(** [RecreateContainers(p, w, nodes...)]. *)
Definition RecreateContainers (sched : list pick) (world : World)
    (p : DockerProvisioner) (nodes : list Node) : option (option error) :=
  ensureContainersStarted sched world p true nodes.

(** ** Cluster hook *)

Record ClusterHook := mkClusterHook {
  Provisioner : DockerProvisioner
}.

(** [(h *ClusterHook) RunClusterHook(evt, node)]; the event is not looked
    at. *)
Definition RunClusterHook (sched : list pick) (world : World) (h : ClusterHook)
    (node : Node) : option (option error) :=
  match InitializeBS world with
  | Some err =>
      Some (Some (ErrorString ("unable to initialize bs node container: " +:+ Error err)))
  | None =>
      match ensureContainersStarted sched world (Provisioner h) false [node] with
      | Some (Some err) =>
          Some (Some (ErrorString ("unable to start node containers: " +:+ Error err)))
      | Some None => Some None
      | None => None
      end
  end.

(** ** Vocabulary of the statements *)

Section PullAttempts.
Context `{Collaborators}.
Variables (log : list call) (image : string) (auth : AuthConfiguration).

(** The answer to the pull attempt that follows [k] earlier attempts
    made one after the other from [log]. *)
Definition pull_attempt (k : nat) : reply :=
  answer (log ++ replicate k (PullImage image auth)) (PullImage image auth).

(** What the first [k] attempts wrote to the output buffer. *)
Fixpoint pull_output (k : nat) : string :=
  match k with
  | O => ""
  | S k' => pull_output k' +:+ reply_out (pull_attempt k')
  end.
End PullAttempts.

(** The configuration and the log with which [create] arrives at its
    first [CreateContainer]: the client was made, the image pulled, the
    endpoint put in front of the environment.  [None] when [create]
    returns before. *)
Definition before_CreateContainer `{Collaborators} (c : NodeContainerConfig)
    (dockerEndpoint : string) (p : DockerProvisioner) (log : list call)
  : option (NodeContainerConfig * list call) :=
  let '(err, log1) := dockerClient dockerEndpoint log in
  match err with
  | Some _ => None
  | None =>
      let '(c1, img, err, log2) := pullImage c p log1 in
      match err with
      | Some _ => None
      | None =>
          let c2 := set_Image c1 img in
          Some (set_Env c2 (("DOCKER_ENDPOINT=" +:+ dockerEndpoint) :: Env (Config_ c2)),
                log2)
      end
  end.

Definition is_CreateContainer (c : call) : bool :=
  match c with CreateContainer _ _ _ => true | _ => false end.

Definition is_RemoveContainer (c : call) : bool :=
  match c with RemoveContainerOptions _ _ => true | _ => false end.

Definition is_StartContainer (c : call) : bool :=
  match c with StartContainer _ _ => true | _ => false end.

Definition is_SetField (c : call) : bool :=
  match c with SetField _ _ _ _ => true | _ => false end.

(** The value [pullImage] compares with the image and may store: the
    image at the digest, or the empty string when no digest came out of
    the pull output. *)
Definition pin_candidate `{Collaborators} (image output : string) : string :=
  let digest := (GetImageDigest output).1 in
  if decide (digest ≠ "") then image +:+ "@" +:+ digest else "".

(** An image reference as the engine's grammar has it,
    [[host/]path[:tag][@digest]], and its text. *)
Record Reference := mkReference {
  ref_host : option string;
  ref_path : string;
  ref_tag : option string;
  ref_digest : option string
}.

Definition render (r : Reference) : string :=
  match ref_host r with Some h => h +:+ "/" | None => "" end
  +:+ ref_path r
  +:+ match ref_tag r with Some t => ":" +:+ t | None => "" end
  +:+ match ref_digest r with Some d => "@" +:+ d | None => "" end.

(** The host has no ['/'], the path no [':'], the tag no ['/']. *)
Definition well_formed (r : Reference) : Prop :=
  (∀ h, ref_host r = Some h → ContainsByte h "/" = false)
  ∧ ContainsByte (ref_path r) ":" = false
  ∧ (∀ t, ref_tag r = Some t → ContainsByte t "/" = false).

(** The specification's [ShouldPin]: no explicit tag, or the tag
    [latest]. *)
Definition ShouldPin_spec (r : Reference) : bool :=
  match ref_tag r with
  | None => true
  | Some t => bool_decide (t = "latest")
  end.

(** How many calls of a kind a log holds. *)
Definition count_calls (kind : call → bool) (calls : list call) : nat :=
  length (List.filter kind calls).

(** C3 on relaunch, as stated: a first creation answered with
    container-already-exists is followed by exactly one forced removal and
    exactly one more creation. *)
Definition relaunch_removes_then_recreates `{Collaborators} (c : NodeContainerConfig)
    (dockerEndpoint poolName : string) (p : DockerProvisioner) : Prop :=
  ∀ c1 log1,
    before_CreateContainer c dockerEndpoint p [] = Some (c1, log1) →
    reply_err (answer log1 (CreateContainer (Name c1) (HostConfig_ c1) (Config_ c1)))
      = Some ErrContainerAlreadyExists →
    let calls := (create c dockerEndpoint poolName p true []).2 in
    count_calls is_RemoveContainer calls = 1%nat
    ∧ count_calls is_CreateContainer calls = 2%nat.

(** C4, as stated: a store update after a successful pull only when the
    image should be pinned, a digest was extracted, and the image at the
    digest is not the image. *)
Definition stores_only_with_digest `{Collaborators} (c : NodeContainerConfig)
    (p : DockerProvisioner) : Prop :=
  ∀ output log1,
    pullWithRetry p (image c) 3 [] = (output, None, log1) →
    (0 < count_calls is_SetField (pullImage c p []).2)%nat →
    shouldPinImage (image c) = true
    ∧ (GetImageDigest output).1 ≠ ""
    ∧ image c +:+ "@" +:+ (GetImageDigest output).1 ≠ image c.

(** What a run of the orchestrator still owes to [errChan], and how many
    steps it can still take. *)
Section Accounting.
Variables (world : World) (p : DockerProvisioner) (relaunch : bool).
Variables (nodes : list Node) (confNames : list string).

(** The errors of the units of node [i] from configuration name [j] on. *)
Definition node_failures_from (i j : nat) : list error :=
  omap (recreateContainer world p relaunch nodes confNames i)
       (seq j (length confNames - j)).

(** The errors of the units of the nodes from [i] on. *)
Definition run_failures_from (i : nat) : list error :=
  seq i (length nodes - i) ≫= (λ i', node_failures_from i' 0).

(** Every error a unit of the run reports, node by node. *)
Definition unit_failures : list error := run_failures_from 0.

Definition owed_by (g : goroutine) : list error :=
  match g with
  | NodeLoop i j => node_failures_from i j
  | Unit i j => option_list (recreateContainer world p relaunch nodes confNames i j)
  | Sending e => [e]
  end.

Definition owed (s : state) : list error :=
  match main s with
  | Spawning i => run_failures_from i
  | Returned _ => []
  end ++ (goroutines s ≫= owed_by).

(** The state of a run agrees with the source: the channel never holds
    more than its capacity, the counter of the wait group is the number of
    live goroutines, and no error is lost or made up. *)
Definition consistent (s : state) : Prop :=
  match main s with
  | Spawning i =>
      errChan s ++ owed s ≡ₚ unit_failures
      ∧ wg s = length (goroutines s)
      ∧ (length (errChan s) ≤ length nodes)%nat
  | Returned r =>
      goroutines s = []
      ∧ ∃ errs, errs ≡ₚ unit_failures
                ∧ (length errs ≤ length nodes)%nat
                ∧ r = collect errs
  end.

(** The units of node [i] from configuration name [j] on, of the nodes
    from [i] on, and of the run. *)
Definition node_units_from (i j : nat) : list (nat * nat) :=
  (λ j', (i, j')) <$> seq j (length confNames - j).

Definition run_units_from (i : nat) : list (nat * nat) :=
  seq i (length nodes - i) ≫= (λ i', node_units_from i' 0).

Definition all_units : list (nat * nat) := run_units_from 0.

Definition units_of (g : goroutine) : list (nat * nat) :=
  match g with
  | NodeLoop i j => node_units_from i j
  | Unit i j => [(i, j)]
  | Sending _ => []
  end.

(** The units that have not run their [recreateContainer] yet. *)
Definition units_left (s : state) : list (nat * nat) :=
  match main s with
  | Spawning i => run_units_from i
  | Returned _ => []
  end ++ (goroutines s ≫= units_of).

(** The unit whose [recreateContainer] a step runs. *)
Definition unit_run_by (pk : pick) (s : state) : list (nat * nat) :=
  match pk with
  | PickMain => []
  | PickGoroutine k =>
      match goroutines s !! k with
      | Some (Unit i j) => [(i, j)]
      | _ => []
      end
  end.

(** The units run under a schedule, in the order in which they ran. *)
Fixpoint units_run (sched : list pick) (s : state) : list (nat * nat) :=
  match sched with
  | [] => []
  | pk :: sched' =>
      match step world p relaunch nodes confNames pk s with
      | Some s' => unit_run_by pk s ++ units_run sched' s'
      | None => []
      end
  end.

Definition steps_of (g : goroutine) : nat :=
  match g with
  | NodeLoop i j => 3 * (length confNames - j) + 1
  | Unit _ _ => 2
  | Sending _ => 1
  end.

(** An upper bound on the steps a run can take from a state. *)
Definition steps_left (s : state) : nat :=
  match main s with
  | Spawning i => (length nodes - i) * (3 * length confNames + 2) + 1
  | Returned _ => 0
  end + sum_list_with steps_of (goroutines s).

End Accounting.

(** [m] occurs in [s]. *)
Definition Substring (m s : string) : Prop :=
  ∃ before after, s = before +:+ m +:+ after.

(** ** Scenarios *)

(** Collaborators that answer the [k]-th call of a run with the [k]-th
    entry of a script, and with success once the script is used up. *)
Definition scripted (script : list reply) (digest : string * option error)
  : Collaborators :=
  {| answer := λ log _, default (mkReply None "") (script !! length log);
     GetImageDigest := λ _, digest |}.

Definition succeeds (out : string) : reply := mkReply None out.
Definition fails (e : error) : reply := mkReply (Some e) "".

Definition no_digest : string * option error :=
  ("", Some (ErrorString "digest not found")).

Definition anonymous : DockerProvisioner := mkProvisioner (mkAuth "" "" "").

(** A configuration named [big-sibling] with the given image. *)
Definition big_sibling (img : string) : NodeContainerConfig :=
  mkNodeContainerConfig "big-sibling" ""
    (mkConfig img ["LOG_LEVEL=info"] []) (mkHostConfig [] "host" false).

Definition node_in (address pool : string) : Node :=
  mkNode address {[ "pool" := pool ]}.

(** A configuration of the given name, as the store holds it. *)
Definition stored (name : string) : NodeContainerConfig :=
  mkNodeContainerConfig name ""
    (mkConfig ("tsuru/" +:+ name +:+ ":v1") [] []) (mkHostConfig [] "host" false).

(** A world with the configuration names [names], in which every
    configuration is found and unit [(i, j)] meets the collaborators
    [engine i j]. *)
Definition fleet (names : list string) (engine : nat → nat → Collaborators) : World :=
  mkWorld (λ _, Ok names) (Ok []) (λ _ _ _ name, Ok (stored name)) engine None.

(** Two configuration names, and no engine answers at its endpoint. *)
Definition unreachable_engines : World :=
  fleet ["big-sibling"; "logger"]
        (λ _ _, scripted [fails (ErrorString "cannot connect to Docker endpoint")] no_digest).

(** Two configuration names, and every engine does as it is asked, but
    for the creation of the first container on the second node. *)
Definition one_full_disk : World :=
  fleet ["big-sibling"; "logger"]
        (λ i j, if decide (i = 1 ∧ j = 0)%nat
                then scripted [succeeds ""; succeeds "";
                               fails (ErrorString "no space left on device")] no_digest
                else scripted [] no_digest).

(** The store does not answer. *)
Definition store_down : World :=
  mkWorld (λ _, Failed (ErrorString "no reachable servers")) (Ok [])
          (λ _ _ _ _, Failed (ErrorString "no reachable servers"))
          (λ _ _, scripted [] no_digest) None.

Definition three_nodes : list Node :=
  [node_in "tcp://10.0.0.1:2375" "dev"; node_in "tcp://10.0.0.2:2375" "dev";
   node_in "tcp://10.0.0.3:2375" "prod"].

(** The baseline configuration cannot be written. *)
Definition baseline_fails : World :=
  mkWorld (λ _, Ok ["big-sibling"]) (Ok []) (λ _ _ _ name, Ok (stored name))
          (λ _ _, scripted [] no_digest) (Some (ErrorString "duplicate key")).

(** Two configuration names; every engine gives a client, and no pull of
    an image goes through: the registry does not answer. *)
Definition registry_down : World :=
  fleet ["big-sibling"; "logger"]
        (λ _ _, scripted [succeeds "";
                          fails (ErrorString "registry timeout");
                          fails (ErrorString "registry timeout");
                          fails (ErrorString "registry timeout")] no_digest).

(** The node that joins the cluster. *)
Definition joining_node : Node := node_in "tcp://10.0.0.4:2375" "dev".

(** What a unit of [joining_node] reports when its pulls fail. *)
Definition pull_failure : error :=
  ErrorString ("[node containers] failed to create container in "
               +:+ "tcp://10.0.0.4:2375 [dev]: registry timeout").

(** The configuration names are listed, the nodes of the cluster are not. *)
Definition cluster_down : World :=
  mkWorld (λ _, Ok ["big-sibling"; "logger"]) (Failed (ErrorString "no reachable servers"))
          (λ _ _ _ name, Ok (stored name))
          (λ _ _, scripted [fails (ErrorString "cannot connect to Docker endpoint")] no_digest)
          None.

(** C1 on the result, as stated: what the call returns is the aggregate
    of a list of unit errors, [nil] for the empty list. *)
Definition returns_aggregate (world : World) (p : DockerProvisioner)
    (relaunch : bool) (nodes : list Node) : Prop :=
  ∀ sched r,
    ensureContainersStarted sched world p relaunch nodes = Some r →
    ∃ errs, r = collect errs.

(** ** Vocabulary of further statements *)

(** The values of the entries of an environment whose text before the
    first ['='] is [k], in the order of the entries. *)
Definition env_values (k : string) (env : list string) : list string :=
  omap (λ e, match Cut e "=" with
             | Some (k', v) => if decide (k' = k) then Some v else None
             | None => None
             end) env.

(** A map written as environment entries [key=value]. *)
Definition env_of_map (m : gmap string string) : list string :=
  (λ kv, kv.1 +:+ "=" +:+ kv.2) <$> map_to_list m.

(** ** The sort interface of [NodeContainerConfigGroupSlice]

    The slice is a list; an index is a Go [int]; indexing out of range
    panics, which is [None]. *)

Abbreviation NodeContainerConfigGroupSlice := (list NodeContainerConfigGroup).

(** [l[i]]. *)
Definition at_index {A : Type} (l : list A) (i : Z) : option A :=
  if decide (0 ≤ i)%Z then l !! Z.to_nat i else None.

(** [(l NodeContainerConfigGroupSlice) Len()]. *)
Definition Len (l : NodeContainerConfigGroupSlice) : Z := Z.of_nat (length l).

(** [(l NodeContainerConfigGroupSlice) Swap(i, j)]: both entries are
    read, then [l[i]] and [l[j]] are written. *)
Definition Swap (l : NodeContainerConfigGroupSlice) (i j : Z)
  : option NodeContainerConfigGroupSlice :=
  match at_index l j, at_index l i with
  | Some lj, Some li => Some (<[Z.to_nat j := li]> (<[Z.to_nat i := lj]> l))
  | _, _ => None
  end.

(** [(l NodeContainerConfigGroupSlice) Less(i, j)]: Go compares strings
    byte by byte, as [String.ltb] does. *)
Definition Less (l : NodeContainerConfigGroupSlice) (i j : Z) : option bool :=
  match at_index l i, at_index l j with
  | Some li, Some lj => Some (String.ltb (GroupName li) (GroupName lj))
  | _, _ => None
  end.

(** ** Registry: the reading functions

    [LoadNodeContainer], [LoadNodeContainersForPools],
    [LoadNodeContainersForPoolsMerge] and [AllNodeContainers] read the
    store.  As for the writing functions, a run is a function of the log
    of the queries made so far, and the store's answer may depend on that
    log. *)

Module Registry.

Inductive query : Type :=
| Load (conf : ScopedConfig) (pool : string)
| LoadPoolsMerge (conf : ScopedConfig) (merge : bool)
| FindAllScopedConfigNames (collection : string).

Class Store := {
  (** [conf.Load(pool, &result)] *)
  loaded : list query → ScopedConfig → string → result NodeContainerConfig;
  (** [conf.LoadPoolsMerge(nil, &result, merge)] *)
  loaded_pools : list query → ScopedConfig → bool
                 → result (gmap string NodeContainerConfig);
  (** [scopedconfig.FindAllScopedConfigNames(collection)] *)
  config_names : list query → string → result (list string)
}.

Definition Q (A : Type) : Type := list query → A * list query.

#[global] Instance Q_ret : MRet Q := λ A a log, (a, log).
#[global] Instance Q_bind : MBind Q := λ A B f m log,
  let '(a, log') := m log in f a log'.

Section Reading.
Context `{Store}.

(** [LoadNodeContainer(pool, name)]. *)
Definition LoadNodeContainer (pool name : string) : Q (result NodeContainerConfig) :=
  let conf := configFor name in
  λ log, (match loaded log conf pool with
          | Failed err => Failed err
          | Ok result => Ok result
          end, log ++ [Load conf pool]).

(** [LoadNodeContainersForPoolsMerge(name, merge)]. *)
Definition LoadNodeContainersForPoolsMerge (name : string) (merge : bool)
  : Q (result (gmap string NodeContainerConfig)) :=
  let conf := configFor name in
  λ log, (match loaded_pools log conf merge with
          | Failed err => Failed err
          | Ok result => Ok result
          end, log ++ [LoadPoolsMerge conf merge]).

(** [LoadNodeContainersForPools(name)]. *)
Definition LoadNodeContainersForPools (name : string)
  : Q (result (gmap string NodeContainerConfig)) :=
  LoadNodeContainersForPoolsMerge name false.

(** The loop of [AllNodeContainers], at index [i] with the names from
    [i] on: [result[i]] is written after each load. *)
Fixpoint AllNodeContainers_range (i : nat) (confNames : list string)
    (groups : list NodeContainerConfigGroup)
  : Q (result (list NodeContainerConfigGroup)) :=
  match confNames with
  | [] => mret (Ok groups)
  | n :: rest =>
      loaded ← LoadNodeContainersForPools n;
      match loaded with
      | Failed err => mret (Failed err)
      | Ok confMap =>
          AllNodeContainers_range (S i) rest
            (<[i := mkNodeContainerConfigGroup n confMap]> groups)
      end
  end.

(** [AllNodeContainers()]; [make] fills the slice with zero values. *)
Definition AllNodeContainers : Q (result (list NodeContainerConfigGroup)) :=
  λ log,
    let log1 := log ++ [FindAllScopedConfigNames nodeContainerCollection] in
    match config_names log nodeContainerCollection with
    | Failed err => (Failed err, log1)
    | Ok confNames =>
        AllNodeContainers_range 0 confNames
          (replicate (length confNames) (mkNodeContainerConfigGroup "" ∅)) log1
    end.

End Reading.

(** The loads [AllNodeContainers] makes for a list of names. *)
Definition loads (names : list string) : list query :=
  (λ n, LoadPoolsMerge (configFor n) false) <$> names.

(** A store that lists [names] and answers the [k]-th query of a run
    with the [k]-th entry of a script of loads, and with no pools once
    the script is used up. *)
Definition scripted_store (names : list string)
    (script : list (result (gmap string NodeContainerConfig))) : Store :=
  {| loaded := λ _ _ _, Failed (ErrorString "not found");
     loaded_pools := λ log _ _, default (Ok ∅) (script !! (length log - 1)%nat);
     config_names := λ _ _, Ok names |}.

End Registry.

(** * Properties *)

(** ** Go strings *)

Lemma Cut_None s sep : Cut s sep = None ↔ ContainsByte s sep = false.
Proof.
  induction s as [|a s IH]; simpl; [done|].
  destruct (Ascii.eqb a sep); [done|].
  destruct (Cut s sep) as [[b r]|]; [|tauto].
  split; [done|]. intros Hc. apply IH in Hc. done.
Qed.

Lemma SplitN_2 s sep :
  SplitN s sep 2 = match Cut s sep with
                   | None => [s]
                   | Some (before, after) => [before; after]
                   end.
Proof. simpl. by destruct (Cut s sep) as [[b r]|]. Qed.

(** ** Registry *)

(** C6. [AddNewContainer] and [UpdateContainer] answer an empty name, and
    an image set for a pool other than the default one, with a
    [ValidationErr], and the store is not called: the log of calls is the
    one they were given. *)
Theorem validation_failure_skips_store `{Collaborators}
    (pool : string) (c : NodeContainerConfig) (log : list call) :
  Name c = "" ∨ (Image (Config_ c) ≠ "" ∧ pool ≠ "") →
  ∃ message,
    validate c pool = Some (ValidationErr message)
    ∧ AddNewContainer pool c log = (Some (ValidationErr message), log)
    ∧ UpdateContainer pool c log = (Some (ValidationErr message), log).
Proof.
  intros Hbad. unfold AddNewContainer, UpdateContainer, validate.
  destruct (decide (Name c = "")) as [Hn|Hn]; [by eexists|].
  destruct (decide (Image (Config_ c) ≠ "" ∧ pool ≠ "")) as [Hi|Hi]; [by eexists|].
  destruct Hbad as [?|?]; done.
Qed.

(** ** EnvMap *)

Lemma EnvMap_range_None env envMap :
  EnvMap_range env envMap = None ↔ Exists (λ e, ContainsByte e "=" = false) env.
Proof.
  revert envMap. induction env as [|e env IH]; intros envMap.
  - simpl. split; [done|]. intros Hex. inversion Hex.
  - cbn [EnvMap_range]. rewrite SplitN_2.
    destruct (Cut e "=") as [[k v]|] eqn:Hcut; simpl.
    + rewrite IH. split.
      * intros Hex. by apply Exists_cons_tl.
      * intros Hex. inversion Hex as [? ? Hhd|]; subst; [|done].
        apply Cut_None in Hhd. congruence.
    + split; [|done]. intros _. apply Exists_cons_hd. by apply Cut_None.
Qed.

(** C9. [EnvMap] panics on its read of [parts[1]] exactly when some entry
    of [Config.Env] has no ['=']; it returns a map exactly when every
    entry has one. *)
Theorem EnvMap_panics_iff_entry_without_equals (c : NodeContainerConfig) :
  (EnvMap c = None ↔ Exists (λ e, ContainsByte e "=" = false) (Env (Config_ c)))
  ∧ (is_Some (EnvMap c) ↔ Forall (λ e, ContainsByte e "=" = true) (Env (Config_ c))).
Proof.
  split; [apply EnvMap_range_None|].
  rewrite <-not_eq_None_Some. unfold EnvMap. rewrite EnvMap_range_None.
  rewrite <-Forall_Exists_neg. apply Forall_iff. intros e.
  by destruct (ContainsByte e "=").
Qed.

(** ** Puller *)

Section Puller.
Context `{Collaborators}.

Lemma pullWithRetry_loop_S tries image auth buf err log :
  pullWithRetry_loop (S tries) image auth buf err log =
    let r := answer log (PullImage image auth) in
    match reply_err r with
    | None => (buf +:+ reply_out r, None, log ++ [PullImage image auth])
    | Some e =>
        pullWithRetry_loop tries image auth (buf +:+ reply_out r) (Some e)
          (log ++ [PullImage image auth])
    end.
Proof.
  cbn [pullWithRetry_loop]. unfold mbind, M_bind, invoke. simpl.
  by destruct (reply_err (answer log (PullImage image auth))).
Qed.

Lemma replicate_snoc {A} (k : nat) (x : A) :
  replicate k x ++ [x] = replicate (S k) x.
Proof. induction k as [|k IH]; simpl; [done|]. by rewrite IH. Qed.

(** The loop, entered after [d] failed attempts, when attempt [d + k] is
    the first one to succeed and is within the attempts left. *)
Lemma pullWithRetry_loop_success log image auth tries :
  ∀ d k err,
    (k < tries)%nat →
    (∀ k', (k' < k)%nat → reply_err (pull_attempt log image auth (d + k')) ≠ None) →
    reply_err (pull_attempt log image auth (d + k)) = None →
    pullWithRetry_loop tries image auth (pull_output log image auth d) err
        (log ++ replicate d (PullImage image auth))
    = (pull_output log image auth (d + S k), None,
       log ++ replicate (d + S k) (PullImage image auth)).
Proof.
  induction tries as [|tries IH]; intros d k err Hk Hfail Hok; [lia|].
  rewrite pullWithRetry_loop_S. cbn zeta.
  fold (pull_attempt log image auth d).
  destruct k as [|k].
  - rewrite Nat.add_0_r in Hok. rewrite Hok.
    rewrite <-(assoc_L (++)), replicate_snoc. by rewrite Nat.add_1_r.
  - destruct (reply_err (pull_attempt log image auth d)) as [e|] eqn:Hd.
    + rewrite <-(assoc_L (++)), replicate_snoc.
      change (pull_output log image auth d +:+ reply_out (pull_attempt log image auth d))
        with (pull_output log image auth (S d)).
      rewrite (IH (S d) k (Some e)).
      * by replace (S d + S k)%nat with (d + S (S k))%nat by lia.
      * lia.
      * intros k' Hk'. replace (S d + k')%nat with (d + S k')%nat by lia.
        apply Hfail. lia.
      * by replace (S d + k)%nat with (d + S k)%nat by lia.
    + exfalso. apply (Hfail 0%nat); [lia|]. by rewrite Nat.add_0_r.
Qed.

(** The loop when every attempt left fails. *)
Lemma pullWithRetry_loop_failure log image auth tries :
  ∀ d err,
    (∀ k, (k < tries)%nat → reply_err (pull_attempt log image auth (d + k)) ≠ None) →
    pullWithRetry_loop tries image auth (pull_output log image auth d) err
        (log ++ replicate d (PullImage image auth))
    = ("",
       match tries with
       | O => err
       | S t => reply_err (pull_attempt log image auth (d + t))
       end,
       log ++ replicate (d + tries) (PullImage image auth)).
Proof.
  induction tries as [|tries IH]; intros d err Hfail.
  - by rewrite Nat.add_0_r.
  - rewrite pullWithRetry_loop_S. cbn zeta.
    fold (pull_attempt log image auth d).
    destruct (reply_err (pull_attempt log image auth d)) as [e|] eqn:Hd.
    + rewrite <-(assoc_L (++)), replicate_snoc.
      change (pull_output log image auth d +:+ reply_out (pull_attempt log image auth d))
        with (pull_output log image auth (S d)).
      rewrite (IH (S d) (Some e)).
      * replace (S d + tries)%nat with (d + S tries)%nat by lia.
        destruct tries as [|t]; [by rewrite Nat.add_0_r, Hd|].
        by replace (S d + t)%nat with (d + S t)%nat by lia.
      * intros k Hk. replace (S d + k)%nat with (d + S k)%nat by lia.
        apply Hfail. lia.
    + exfalso. apply (Hfail 0%nat); [lia|]. by rewrite Nat.add_0_r.
Qed.

(** The loop as the source writes it: one more attempt while
    [maxTries > 0]. *)
Lemma pullWithRetry_loop_unfold image auth (maxTries : Z) buf err log :
  pullWithRetry_loop (Z.to_nat maxTries) image auth buf err log =
    if decide (maxTries > 0)%Z then
      let r := answer log (PullImage image auth) in
      match reply_err r with
      | None => (buf +:+ reply_out r, None, log ++ [PullImage image auth])
      | Some e =>
          pullWithRetry_loop (Z.to_nat (maxTries - 1)) image auth
            (buf +:+ reply_out r) (Some e) (log ++ [PullImage image auth])
      end
    else ("", err, log).
Proof.
  destruct (decide (maxTries > 0)%Z) as [Hpos|Hneg].
  - replace (Z.to_nat maxTries) with (S (Z.to_nat (maxTries - 1))) by lia.
    apply pullWithRetry_loop_S.
  - by replace (Z.to_nat maxTries) with 0%nat by lia.
Qed.

(** C5. With [maxTries >= 1], [pullWithRetry] makes its attempts one
    after the other with no other call in between; when the attempt
    after [k < maxTries] failed ones succeeds it returns, after exactly
    [k + 1] attempts, the buffered output and no error; when all
    [maxTries] attempts fail it returns, after exactly [maxTries]
    attempts, the empty string and the error of the last attempt. *)
Theorem pullWithRetry_attempts (p : DockerProvisioner) (image : string)
    (maxTries : Z) (log : list call) :
  (1 ≤ maxTries)%Z →
  let auth := RegistryAuthConfig p in
  (∀ k : nat,
      (Z.of_nat k < maxTries)%Z →
      (∀ k', (k' < k)%nat → reply_err (pull_attempt log image auth k') ≠ None) →
      reply_err (pull_attempt log image auth k) = None →
      pullWithRetry p image maxTries log
      = (pull_output log image auth (S k), None,
         log ++ replicate (S k) (PullImage image auth)))
  ∧ ((∀ k : nat, (Z.of_nat k < maxTries)%Z →
                 reply_err (pull_attempt log image auth k) ≠ None) →
     pullWithRetry p image maxTries log
     = ("", reply_err (pull_attempt log image auth (Z.to_nat (maxTries - 1))),
        log ++ replicate (Z.to_nat maxTries) (PullImage image auth))).
Proof.
  intros Hpos auth. unfold pullWithRetry. fold auth. split.
  - intros k Hk Hfail Hok.
    pose proof (pullWithRetry_loop_success log image auth (Z.to_nat maxTries)
                  0 k None) as Hloop.
    simpl in Hloop. rewrite app_nil_r in Hloop. apply Hloop; [lia|done|done].
  - intros Hfail.
    pose proof (pullWithRetry_loop_failure log image auth (Z.to_nat maxTries)
                  0 None) as Hloop.
    simpl in Hloop. rewrite app_nil_r in Hloop. rewrite Hloop.
    + replace (Z.to_nat maxTries) with (S (Z.to_nat (maxTries - 1))) at 1 by lia.
      done.
    + intros k Hk. apply Hfail. lia.
Qed.

(** C10. With [maxTries <= 0] the loop body is never entered:
    [pullWithRetry] makes no call at all and returns the empty string
    and a [nil] error. *)
Theorem pullWithRetry_without_tries (p : DockerProvisioner) (image : string)
    (maxTries : Z) (log : list call) :
  (maxTries ≤ 0)%Z →
  pullWithRetry p image maxTries log = ("", None, log).
Proof.
  intros Hle. unfold pullWithRetry.
  rewrite pullWithRetry_loop_unfold. by rewrite decide_False by lia.
Qed.

End Puller.

(** An empty name is rejected for the default pool too, and the store
    sees nothing. *)
Lemma validation_failure_skips_store_witness :
  ∃ message,
    validate (mkNodeContainerConfig "" "" (mkConfig "tsuru/bs" [] []) (mkHostConfig [] "" false))
             "" = Some (ValidationErr message)
    ∧ AddNewContainer (H := scripted [] no_digest) ""
        (mkNodeContainerConfig "" "" (mkConfig "tsuru/bs" [] []) (mkHostConfig [] "" false)) []
      = (Some (ValidationErr message), [])
    ∧ UpdateContainer (H := scripted [] no_digest) ""
        (mkNodeContainerConfig "" "" (mkConfig "tsuru/bs" [] []) (mkHostConfig [] "" false)) []
      = (Some (ValidationErr message), []).
Proof.
  apply (validation_failure_skips_store (H := scripted [] no_digest)).
  left. reflexivity.
Defined.

(** Two failed attempts and a third that succeeds, with three attempts
    allowed: three pulls, the output of all of them, no error. *)
Lemma pullWithRetry_attempts_witness :
  pullWithRetry
    (H := scripted [fails (ErrorString "timeout"); fails (ErrorString "reset");
                    succeeds "Status: downloaded"] no_digest)
    anonymous "tsuru/bs" 3 []
  = ("Status: downloaded", None,
     replicate 3 (PullImage "tsuru/bs" (RegistryAuthConfig anonymous))).
Proof.
  refine (proj1 (pullWithRetry_attempts
            (H := scripted [fails (ErrorString "timeout"); fails (ErrorString "reset");
                            succeeds "Status: downloaded"] no_digest)
            anonymous "tsuru/bs" 3 [] _) 2%nat _ _ _).
  - lia.
  - lia.
  - intros [|[|k']] Hk'; [discriminate|discriminate|lia].
  - reflexivity.
Defined.

(** No attempt allowed: nothing is pulled, and nothing is reported. *)
Lemma pullWithRetry_without_tries_witness :
  pullWithRetry (H := scripted [fails (ErrorString "timeout")] no_digest)
    anonymous "tsuru/bs" 0 []
  = ("", None, []).
Proof.
  apply (pullWithRetry_without_tries (H := scripted [fails (ErrorString "timeout")] no_digest)).
  lia.
Defined.

(** Three failed attempts out of three: the error of the third. *)
Example pullWithRetry_returns_last_error :
  pullWithRetry
    (H := scripted [fails (ErrorString "timeout"); fails (ErrorString "reset");
                    fails (ErrorString "not found")] no_digest)
    anonymous "tsuru/bs" 3 []
  = ("", Some (ErrorString "not found"),
     replicate 3 (PullImage "tsuru/bs" (RegistryAuthConfig anonymous))).
Proof. reflexivity. Qed.

(** ** Image resolver *)

Lemma append_self_inv (s t : string) : s +:+ t = s → t = "".
Proof.
  induction s as [|a s IH]; simpl; [done|].
  intros Heq. injection Heq as Heq. by apply IH.
Qed.

Section Resolver.
Context `{Collaborators}.

Lemma pin_candidate_differs (img output : string) :
  pin_candidate img output ≠ img ↔ (GetImageDigest output).1 ≠ "" ∨ img ≠ "".
Proof.
  unfold pin_candidate.
  destruct (decide ((GetImageDigest output).1 ≠ "")) as [Hd|Hd].
  - split; [by left|]. intros _ Heq. apply append_self_inv in Heq. done.
  - split.
    + intros Hne. right. congruence.
    + intros [?|Hne]; [done|congruence].
Qed.

Lemma pullImage_unfold (c : NodeContainerConfig) (p : DockerProvisioner)
    (log : list call) :
  pullImage c p log =
    let '(output, err, log1) := pullWithRetry p (image c) 3 log in
    match err with
    | Some e => (c, "", Some e, log1)
    | None =>
        if shouldPinImage (image c) then
          if decide (pin_candidate (image c) output ≠ image c) then
            let store := SetField (configFor (Name c)) "" "PinnedImage" (pin_candidate (image c) output) in
            (set_PinnedImage c (pin_candidate (image c) output), image c,
             reply_err (answer log1 store), log1 ++ [store])
          else (c, image c, None, log1)
        else (c, image c, None, log1)
    end.
Proof.
  unfold pullImage, pin_candidate, mbind, M_bind.
  destruct (pullWithRetry p (image c) 3 log) as [[output err] log1].
  destruct err as [e|]; [done|].
  destruct (shouldPinImage (image c)); [|done].
  destruct (GetImageDigest output) as [digest derr]. simpl.
  by destruct (decide ((if decide (digest ≠ "") then image c +:+ "@" +:+ digest else "")
                       ≠ image c)).
Qed.

(** C4, as the code has it.  After a successful pull, [pullImage] makes
    the single-field update of [PinnedImage] exactly when [shouldPinImage]
    holds for the image and a digest was extracted or the image is not
    empty; the value stored is the image at the digest, or the empty
    string when no digest was extracted.  The error of the digest
    extraction is dropped; the error [pullImage] returns is the one of
    that update, and [nil] when there is none. *)
Theorem pullImage_store_update (c : NodeContainerConfig) (p : DockerProvisioner)
    (log log1 : list call) (output : string) :
  pullWithRetry p (image c) 3 log = (output, None, log1) →
  let digest := (GetImageDigest output).1 in
  let value := if decide (digest ≠ "") then image c +:+ "@" +:+ digest else "" in
  let store := SetField (configFor (Name c)) "" "PinnedImage" value in
  if decide (shouldPinImage (image c) = true ∧ (digest ≠ "" ∨ image c ≠ "")) then
    pullImage c p log
    = (set_PinnedImage c value, image c, reply_err (answer log1 store), log1 ++ [store])
  else pullImage c p log = (c, image c, None, log1).
Proof.
  intros Hpull digest value store. rewrite pullImage_unfold, Hpull.
  change value with (pin_candidate (image c) output) in *.
  subst store digest.
  destruct (shouldPinImage (image c)) eqn:Hpin.
  - destruct (decide (pin_candidate (image c) output ≠ image c)) as [Hne|Heq].
    + rewrite decide_True; [done|]. split; [done|]. by apply pin_candidate_differs.
    + rewrite decide_False; [done|]. intros [_ Hd]. by apply pin_candidate_differs in Hd.
  - rewrite decide_False; [done|]. by intros [? _].
Qed.

End Resolver.

(** An untagged image whose pull output carries a digest: the image at
    that digest is stored. *)
Lemma pullImage_store_update_witness :
  pullImage
    (H := scripted [succeeds "Digest: sha256:0a1b"] ("sha256:0a1b", None))
    (big_sibling "tsuru/bs") anonymous []
  = (set_PinnedImage (big_sibling "tsuru/bs") "tsuru/bs@sha256:0a1b", "tsuru/bs", None,
     [PullImage "tsuru/bs" (RegistryAuthConfig anonymous);
      SetField (configFor "big-sibling") "" "PinnedImage" "tsuru/bs@sha256:0a1b"]).
Proof.
  apply (pullImage_store_update
           (H := scripted [succeeds "Digest: sha256:0a1b"] ("sha256:0a1b", None))
           (big_sibling "tsuru/bs") anonymous []
           [PullImage "tsuru/bs" (RegistryAuthConfig anonymous)] "Digest: sha256:0a1b").
  reflexivity.
Defined.

(** C4 as stated fails: the pull of an untagged image succeeds, no digest
    is extracted from its output, and the store is still asked to update
    [PinnedImage], with the empty string. *)
Lemma pullImage_stores_without_digest :
  ¬ stores_only_with_digest
      (H := scripted [succeeds "Status: image is up to date"] no_digest)
      (big_sibling "tsuru/bs") anonymous.
Proof.
  intros Hclaim.
  destruct (Hclaim "Status: image is up to date"
              [PullImage "tsuru/bs" (RegistryAuthConfig anonymous)] eq_refl)
    as (_ & Hdigest & _).
  - vm_compute. lia.
  - by apply Hdigest.
Qed.

Example pullImage_stores_empty_pin :
  pullImage (H := scripted [succeeds "Status: image is up to date"] no_digest)
    (big_sibling "tsuru/bs") anonymous []
  = (big_sibling "tsuru/bs", "tsuru/bs", None,
     [PullImage "tsuru/bs" (RegistryAuthConfig anonymous);
      SetField (configFor "big-sibling") "" "PinnedImage" ""]).
Proof. reflexivity. Qed.

(** ** Lifecycle manager *)

Section Lifecycle.
Context `{Collaborators}.
Variables (c : NodeContainerConfig) (dockerEndpoint poolName : string).
Variables (p : DockerProvisioner) (relaunch : bool) (log : list call).

(** [create] from its first [CreateContainer] on. *)
Lemma create_from_CreateContainer (c1 : NodeContainerConfig) (log1 : list call) :
  before_CreateContainer c dockerEndpoint p log = Some (c1, log1) →
  let opts := CreateContainer (Name c1) (HostConfig_ c1) (Config_ c1) in
  let rm := RemoveContainerOptions (Name c1) true in
  let start l := (c1, start_result (reply_err (answer l (StartContainer (Name c1) (HostConfig_ c1)))),
                  l ++ [StartContainer (Name c1) (HostConfig_ c1)]) in
  let after_create (err : option error) l :=
    match err with
    | Some e => if decide (e ≠ ErrContainerAlreadyExists) then (c1, Some e, l) else start l
    | None => start l
    end in
  create c dockerEndpoint poolName p relaunch log =
    if relaunch && bool_decide (reply_err (answer log1 opts) = Some ErrContainerAlreadyExists)
    then
      match reply_err (answer (log1 ++ [opts]) rm) with
      | Some e => (c1, Some e, (log1 ++ [opts]) ++ [rm])
      | None =>
          after_create (reply_err (answer ((log1 ++ [opts]) ++ [rm]) opts))
                       (((log1 ++ [opts]) ++ [rm]) ++ [opts])
      end
    else after_create (reply_err (answer log1 opts)) (log1 ++ [opts]).
Proof.
  unfold before_CreateContainer, create, dockerClient, invoke, mbind, M_bind, mret, M_ret.
  destruct (reply_err (answer log (NewClient dockerEndpoint))); [done|].
  destruct (pullImage c p (log ++ [NewClient dockerEndpoint])) as [[[c' img] err] log2].
  destruct err as [e|]; [done|].
  intros [= <- <-]. cbn zeta.
  set (c1 := set_Env _ _).
  destruct (relaunch && _).
  - destruct (reply_err (answer (log2 ++ _) (RemoveContainerOptions _ _))); [done|].
    destruct (reply_err (answer ((log2 ++ _) ++ _) _)) as [e|]; [|done].
    by destruct (decide (e ≠ ErrContainerAlreadyExists)).
  - destruct (reply_err (answer log2 _)) as [e|]; [|done].
    by destruct (decide (e ≠ ErrContainerAlreadyExists)).
Qed.

(** [create] that does not get to [CreateContainer] returns an error. *)
Lemma create_before_CreateContainer :
  before_CreateContainer c dockerEndpoint p log = None →
  is_Some (create c dockerEndpoint poolName p relaunch log).1.2.
Proof.
  unfold before_CreateContainer, create, dockerClient, invoke, mbind, M_bind, mret, M_ret.
  destruct (reply_err (answer log (NewClient dockerEndpoint))); [by eexists|].
  destruct (pullImage c p (log ++ [NewClient dockerEndpoint])) as [[[c' img] err] log2].
  destruct err as [e|]; [by eexists|done].
Qed.

End Lifecycle.

Section LifecycleCases.
Context `{Collaborators}.

(** C3, as the code has it.  From the first [CreateContainer] on:
    without relaunch, container-already-exists is taken as success, no
    removal is made and the container is started; with relaunch it is
    answered with one forced removal, whose error ends [create], and after
    a removal without error with one more creation; a creation without
    error, or a repeated one answered container-already-exists, is
    followed by the start; any other creation error is returned and
    nothing is started; an already-running error of the start is [nil],
    any other is returned. *)
Theorem create_lifecycle (c : NodeContainerConfig) (dockerEndpoint poolName : string)
    (p : DockerProvisioner) (relaunch : bool) (log : list call)
    (c1 : NodeContainerConfig) (log1 : list call) :
  before_CreateContainer c dockerEndpoint p log = Some (c1, log1) →
  let opts := CreateContainer (Name c1) (HostConfig_ c1) (Config_ c1) in
  let rm := RemoveContainerOptions (Name c1) true in
  let start := StartContainer (Name c1) (HostConfig_ c1) in
  let started l := (c1, start_result (reply_err (answer l start)), l ++ [start]) in
  let first := reply_err (answer log1 opts) in
  let removal := reply_err (answer (log1 ++ [opts]) rm) in
  let second := reply_err (answer (log1 ++ [opts; rm]) opts) in
  let result := create c dockerEndpoint poolName p relaunch log in
  (relaunch = false → first = Some ErrContainerAlreadyExists →
     result = started (log1 ++ [opts]))
  ∧ (relaunch = true → first = Some ErrContainerAlreadyExists →
     ∀ e, removal = Some e → result = (c1, Some e, log1 ++ [opts; rm]))
  ∧ (relaunch = true → first = Some ErrContainerAlreadyExists → removal = None →
     (second = None ∨ second = Some ErrContainerAlreadyExists →
        result = started (log1 ++ [opts; rm; opts]))
     ∧ (∀ e, second = Some e → e ≠ ErrContainerAlreadyExists →
        result = (c1, Some e, log1 ++ [opts; rm; opts])))
  ∧ (first = None → result = started (log1 ++ [opts]))
  ∧ (∀ e, first = Some e → e ≠ ErrContainerAlreadyExists →
     result = (c1, Some e, log1 ++ [opts]))
  ∧ (∀ ID, start_result (Some (ContainerAlreadyRunning ID)) = None)
  ∧ (∀ e, (∀ ID, e ≠ ContainerAlreadyRunning ID) → start_result (Some e) = Some e).
Proof.
  intros Hbefore.
  pose proof (create_from_CreateContainer c dockerEndpoint poolName p relaunch log
                c1 log1 Hbefore) as Hcreate.
  cbn zeta in *. rewrite <-!(assoc_L (++)) in Hcreate. simpl in Hcreate.
  rewrite Hcreate. clear Hcreate.
  repeat split; intros; subst;
    repeat match goal with
           | Hor : _ ∨ _ |- _ => destruct Hor
           | Heq : reply_err _ = _ |- _ => rewrite !Heq; clear Heq
           end;
    cbn; repeat (case_decide || case_bool_decide);
    rewrite ?andb_false_r, <-?(assoc_L (++)); try done.
  all: match goal with e : error |- _ => destruct e; naive_solver end.
Qed.

End LifecycleCases.

(** The container exists and relaunch is off: one creation, no removal,
    the start, and no error. *)
Lemma create_lifecycle_witness :
  create
    (H := scripted [succeeds ""; succeeds "Status: ok"; fails ErrContainerAlreadyExists;
                    fails (ContainerAlreadyRunning "big-sibling")] no_digest)
    (big_sibling "tsuru/bs:v1") "tcp://10.0.0.1:2375" "dev" anonymous false []
  = (set_Env (big_sibling "tsuru/bs:v1") ["DOCKER_ENDPOINT=tcp://10.0.0.1:2375"; "LOG_LEVEL=info"],
     None,
     [NewClient "tcp://10.0.0.1:2375";
      PullImage "tsuru/bs:v1" (RegistryAuthConfig anonymous);
      CreateContainer "big-sibling" (mkHostConfig [] "host" false)
        (mkConfig "tsuru/bs:v1" ["DOCKER_ENDPOINT=tcp://10.0.0.1:2375"; "LOG_LEVEL=info"] []);
      StartContainer "big-sibling" (mkHostConfig [] "host" false)]).
Proof.
  refine (proj1 (create_lifecycle
            (H := scripted [succeeds ""; succeeds "Status: ok";
                            fails ErrContainerAlreadyExists;
                            fails (ContainerAlreadyRunning "big-sibling")] no_digest)
            (big_sibling "tsuru/bs:v1") "tcp://10.0.0.1:2375" "dev" anonymous false []
            (set_Env (big_sibling "tsuru/bs:v1")
               ["DOCKER_ENDPOINT=tcp://10.0.0.1:2375"; "LOG_LEVEL=info"])
            [NewClient "tcp://10.0.0.1:2375";
             PullImage "tsuru/bs:v1" (RegistryAuthConfig anonymous)] _) _ _).
  - reflexivity.
  - reflexivity.
  - reflexivity.
Defined.

(** C3 as stated fails: the container exists, relaunch is on and the
    forced removal fails; [create] returns the removal's error and no
    second creation is made. *)
Lemma create_relaunch_without_second_creation :
  ¬ relaunch_removes_then_recreates
      (H := scripted [succeeds ""; succeeds "Status: ok"; fails ErrContainerAlreadyExists;
                      fails (ErrorString "removal of container in progress")] no_digest)
      (big_sibling "tsuru/bs:v1") "tcp://10.0.0.1:2375" "dev" anonymous.
Proof.
  intros Hclaim.
  destruct (Hclaim _ _ eq_refl eq_refl) as [_ Hcreations].
  vm_compute in Hcreations. discriminate.
Qed.

Example create_relaunch_removal_error :
  create
    (H := scripted [succeeds ""; succeeds "Status: ok"; fails ErrContainerAlreadyExists;
                    fails (ErrorString "removal of container in progress")] no_digest)
    (big_sibling "tsuru/bs:v1") "tcp://10.0.0.1:2375" "dev" anonymous true []
  = (set_Env (big_sibling "tsuru/bs:v1") ["DOCKER_ENDPOINT=tcp://10.0.0.1:2375"; "LOG_LEVEL=info"],
     Some (ErrorString "removal of container in progress"),
     [NewClient "tcp://10.0.0.1:2375";
      PullImage "tsuru/bs:v1" (RegistryAuthConfig anonymous);
      CreateContainer "big-sibling" (mkHostConfig [] "host" false)
        (mkConfig "tsuru/bs:v1" ["DOCKER_ENDPOINT=tcp://10.0.0.1:2375"; "LOG_LEVEL=info"] []);
      RemoveContainerOptions "big-sibling" true]).
Proof. reflexivity. Qed.

(** ** The pinning rule *)

Lemma append_String (x : ascii) (a b : string) :
  String x a +:+ b = String x (a +:+ b).
Proof. done. Qed.

Lemma append_empty_l (b : string) : "" +:+ b = b.
Proof. done. Qed.

Lemma append_assoc (a b c : string) : (a +:+ b) +:+ c = a +:+ (b +:+ c).
Proof. induction a as [|x a IH]; [done|]. rewrite !append_String. by f_equal. Qed.

Lemma append_empty_r (a : string) : a +:+ "" = a.
Proof. induction a as [|x a IH]; [done|]. rewrite append_String. by f_equal. Qed.

Lemma ContainsByte_append (a b : string) (c : ascii) :
  ContainsByte (a +:+ b) c = ContainsByte a c || ContainsByte b c.
Proof.
  induction a as [|x a IH]; [done|]. rewrite append_String. simpl.
  by destruct (Ascii.eqb x c).
Qed.

Lemma Cut_at_first (a b : string) (sep : ascii) :
  ContainsByte a sep = false → Cut (a +:+ String sep b) sep = Some (a, b).
Proof.
  induction a as [|x a IH].
  - intros _. rewrite append_empty_l. simpl. by rewrite Ascii.eqb_refl.
  - rewrite append_String. simpl.
    destruct (Ascii.eqb x sep); [done|]. intros Ha. by rewrite IH.
Qed.

Lemma Cut_append_l (a b x y : string) (sep : ascii) :
  Cut a sep = Some (x, y) → Cut (a +:+ b) sep = Some (x, y +:+ b).
Proof.
  revert x. induction a as [|z a IH]; intros x; [done|].
  rewrite append_String. simpl.
  destruct (Ascii.eqb z sep); [by intros [= <- <-]|].
  destruct (Cut a sep) as [[x' y']|]; [|done].
  intros [= <- <-]. by rewrite (IH x' eq_refl).
Qed.

Lemma Cut_Some_inv (a x y : string) (sep : ascii) :
  Cut a sep = Some (x, y) → a = x +:+ String sep y.
Proof.
  revert x. induction a as [|z a IH]; intros x; simpl; [done|].
  destruct (Ascii.eqb z sep) eqn:Hz.
  - apply Ascii.eqb_eq in Hz as ->. by intros [= <- <-].
  - destruct (Cut a sep) as [[x' y']|]; [|done].
    intros [= <- <-]. rewrite append_String. by rewrite <-(IH x' eq_refl).
Qed.

Lemma SplitN_SS (s : string) (sep : ascii) (n : nat) :
  SplitN s sep (S (S n)) = match Cut s sep with
                           | None => [s]
                           | Some (before, after) => before :: SplitN after sep (S n)
                           end.
Proof. done. Qed.

(** The last piece of a split at ['/'] keeps what follows the path, and
    what it keeps of the path is free of [':'] if the path is. *)
Lemma SplitN_last_keeps_suffix (n : nat) :
  ∀ path suffix,
    ContainsByte path ":" = false →
    ContainsByte suffix "/" = false →
    ∃ q, last (SplitN (path +:+ suffix) "/" (S n)) = Some (q +:+ suffix)
         ∧ ContainsByte q ":" = false.
Proof.
  induction n as [|n IH]; intros path suffix Hpath Hsuffix.
  - by exists path.
  - rewrite SplitN_SS. destruct (Cut path "/") as [[x y]|] eqn:Hcut.
    + rewrite (Cut_append_l _ suffix _ _ _ Hcut).
      apply Cut_Some_inv in Hcut as ->.
      rewrite ContainsByte_append in Hpath. simpl in Hpath.
      apply orb_false_iff in Hpath as [_ Hy].
      destruct (IH y suffix Hy Hsuffix) as (q & Hlast & Hq).
      exists q. split; [|done]. by rewrite last_cons, Hlast.
    + assert (Cut (path +:+ suffix) "/" = None) as ->.
      { apply Cut_None. rewrite ContainsByte_append.
        apply Cut_None in Hcut. by rewrite Hcut, Hsuffix. }
      by exists path.
Qed.

Lemma shouldPinImage_of_last_piece (image q suffix : string) :
  last (SplitN image "/" 3) = Some (q +:+ suffix) →
  ContainsByte q ":" = false →
  (suffix = "" → shouldPinImage image = true)
  ∧ (∀ t, suffix = ":" +:+ t → shouldPinImage image = bool_decide (t = "latest")).
Proof.
  intros Hlast Hq. unfold shouldPinImage, shouldPinImage_checked.
  rewrite Nat.sub_1_r, <-last_lookup, Hlast. cbn zeta. rewrite SplitN_2.
  split.
  - intros ->. rewrite append_empty_r.
    apply Cut_None in Hq. by rewrite Hq.
  - intros t ->. rewrite append_String, append_empty_l.
    by rewrite (Cut_at_first q t ":" Hq).
Qed.

(** [shouldPinImage] reads no slice out of range. *)
Lemma shouldPinImage_no_panic (image : string) :
  shouldPinImage_checked image = Some (shouldPinImage image).
Proof.
  unfold shouldPinImage, shouldPinImage_checked.
  rewrite Nat.sub_1_r, <-last_lookup.
  assert (is_Some (last (SplitN image "/" 3))) as [lastPart ->].
  { rewrite SplitN_SS. destruct (Cut image "/") as [[x y]|]; [|by eexists].
    rewrite last_cons, SplitN_2. destruct (Cut y "/") as [[? ?]|]; by eexists. }
  cbn zeta. rewrite SplitN_2.
  by destruct (Cut lastPart ":") as [[? ?]|].
Qed.

(** C7, as the code has it.  On a reference without digest,
    [[host/]path[:tag]], [shouldPinImage] is true exactly when there is no
    tag or the tag is [latest]; so it is for the three references of the
    specification. *)
Theorem shouldPinImage_untagged_or_latest (r : Reference) :
  well_formed r →
  ref_digest r = None →
  shouldPinImage (render r) = ShouldPin_spec r
  ∧ (shouldPinImage (render r) = true ↔ ref_tag r = None ∨ ref_tag r = Some "latest").
Proof.
  intros (Hhost & Hpath & Htag) Hdigest.
  assert (shouldPinImage (render r) = ShouldPin_spec r) as Heq.
  { unfold render, ShouldPin_spec. rewrite Hdigest, append_empty_r.
    set (suffix := match ref_tag r with Some t => ":" +:+ t | None => "" end).
    assert (ContainsByte suffix "/" = false) as Hsuffix.
    { subst suffix. destruct (ref_tag r) as [t|]; [|done].
      rewrite append_String, append_empty_l. simpl. by apply Htag. }
    assert (∃ q, last (SplitN (match ref_host r with Some h => h +:+ "/" | None => "" end
                               +:+ ref_path r +:+ suffix) "/" 3) = Some (q +:+ suffix)
                 ∧ ContainsByte q ":" = false) as (q & Hlast & Hq).
    { destruct (ref_host r) as [h|].
      - rewrite append_assoc, append_String, append_empty_l, SplitN_SS.
        rewrite (Cut_at_first h _ "/" (Hhost h eq_refl)).
        destruct (SplitN_last_keeps_suffix 1 (ref_path r) suffix Hpath Hsuffix)
          as (q & Hlast & Hq).
        exists q. split; [|done]. by rewrite last_cons, Hlast.
      - rewrite append_empty_l. by apply SplitN_last_keeps_suffix. }
    destruct (shouldPinImage_of_last_piece _ q suffix Hlast Hq) as [Hnone Hsome].
    subst suffix. destruct (ref_tag r) as [t|]; [by apply Hsome|by apply Hnone]. }
  split; [done|]. rewrite Heq. unfold ShouldPin_spec.
  destruct (ref_tag r) as [t|].
  - rewrite bool_decide_eq_true. split; [intros ->; by right|].
    intros [Hn|Hs]; [done|]. by injection Hs.
  - split; [by left|done].
Qed.

(** A registry with a port, a path of two segments, the tag [latest]. *)
Lemma shouldPinImage_untagged_or_latest_witness :
  shouldPinImage "registry.local:5000/tsuru/bs:latest" = true.
Proof.
  refine (proj2 (proj2 (shouldPinImage_untagged_or_latest
            (mkReference (Some "registry.local:5000") "tsuru/bs" (Some "latest") None)
            _ _)) _).
  - split; [|split].
    + intros h Hh. injection Hh as <-. reflexivity.
    + reflexivity.
    + intros t Ht. injection Ht as <-. reflexivity.
  - reflexivity.
  - right. reflexivity.
Defined.

(** The three references of the specification. *)
Example shouldPinImage_examples :
  shouldPinImage "x/y:v1" = false
  ∧ shouldPinImage "x/y:latest" = true
  ∧ shouldPinImage "x/y" = true.
Proof. by vm_compute. Qed.

(** A reference with the tag [latest] and a digest: false as well. *)
Example shouldPinImage_false_for_latest_at_digest :
  render (mkReference None "x/y" (Some "latest") (Some "sha256:abc"))
  = "x/y:latest@sha256:abc"
  ∧ shouldPinImage "x/y:latest@sha256:abc" = false.
Proof. by vm_compute. Qed.

(** C7 as stated fails: a reference by digest has no tag, and
    [shouldPinImage] is false for it. *)
Lemma shouldPinImage_false_for_digest_reference :
  let r := mkReference None "x/y" None (Some "sha256:abc") in
  render r = "x/y@sha256:abc"
  ∧ ref_tag r = None
  ∧ ¬ (shouldPinImage (render r) = true ↔ ref_tag r = None ∨ ref_tag r = Some "latest").
Proof.
  split; [done|]. split; [done|]. intros [_ Hclaim].
  by specialize (Hclaim (or_introl eq_refl)).
Qed.

(** ** Recreate orchestrator *)

Lemma Join_cons (e : string) (rest : list string) (sep : string) :
  Join (e :: rest) sep = match rest with
                         | [] => e
                         | _ :: _ => e +:+ sep +:+ Join rest sep
                         end.
Proof. done. Qed.

(** Every element of a joined list occurs in the result. *)
Lemma Join_Substring (elems : list string) (sep e : string) :
  e ∈ elems → Substring e (Join elems sep).
Proof.
  induction elems as [|x elems IH]; intros Hin; [by apply not_elem_of_nil in Hin|].
  rewrite Join_cons. apply elem_of_cons in Hin as [->|Hin].
  - destruct elems as [|y elems].
    + exists "", "". by rewrite append_empty_l, append_empty_r.
    + exists "", (sep +:+ Join (y :: elems) sep). by rewrite append_empty_l.
  - destruct elems as [|y elems]; [by apply not_elem_of_nil in Hin|].
    destruct (IH Hin) as (before & after & ->).
    exists (x +:+ sep +:+ before), after. by rewrite !append_assoc.
Qed.

Lemma collect_None (errs : list error) : collect errs = None ↔ errs = [].
Proof.
  unfold collect. rewrite length_fmap. destruct errs as [|e errs]; simpl; [done|].
  split; intros; discriminate.
Qed.

(** The composite error names every error it was made of. *)
Lemma collect_Substring (errs : list error) (e : error) :
  e ∈ errs →
  ∃ message, collect errs = Some (ErrorString message) ∧ Substring (Error e) message.
Proof.
  intros Hin. unfold collect. rewrite length_fmap.
  destruct errs as [|e0 errs]; [by apply not_elem_of_nil in Hin|]. simpl length.
  rewrite decide_False by lia. eexists. split; [done|].
  destruct (Join_Substring (Error <$> e0 :: errs) ", " (Error e)) as (before & after & ->).
  { by apply list_elem_of_fmap_2. }
  exists ("multiple errors: " +:+ before), after. by rewrite !append_assoc.
Qed.

Lemma sum_list_with_delete {A} (f : A → nat) (l : list A) (k : nat) (x : A) :
  l !! k = Some x → sum_list_with f l = (f x + sum_list_with f (delete k l))%nat.
Proof. intros Hk. by rewrite (delete_Permutation l k x Hk) at 1. Qed.

Lemma bind_delete {A B} (f : A → list B) (l : list A) (k : nat) (x : A) :
  l !! k = Some x → l ≫= f ≡ₚ f x ++ (delete k l ≫= f).
Proof. intros Hk. by rewrite (delete_Permutation l k x Hk) at 1. Qed.

Section Interleaving.
Variables (world : World) (p : DockerProvisioner) (relaunch : bool).
Variables (nodes : list Node) (confNames : list string).

Local Abbreviation step := (step world p relaunch nodes confNames).
Local Abbreviation run := (run world p relaunch nodes confNames).
Local Abbreviation recreateContainer := (recreateContainer world p relaunch nodes confNames).
Local Abbreviation node_failures_from := (node_failures_from world p relaunch nodes confNames).
Local Abbreviation run_failures_from := (run_failures_from world p relaunch nodes confNames).
Local Abbreviation unit_failures := (unit_failures world p relaunch nodes confNames).
Local Abbreviation owed_by := (owed_by world p relaunch nodes confNames).
Local Abbreviation owed := (owed world p relaunch nodes confNames).
Local Abbreviation consistent := (consistent world p relaunch nodes confNames).
Local Abbreviation steps_of := (steps_of confNames).
Local Abbreviation node_units_from := (node_units_from confNames).
Local Abbreviation run_units_from := (run_units_from nodes confNames).
Local Abbreviation all_units := (all_units nodes confNames).
Local Abbreviation units_of := (units_of confNames).
Local Abbreviation units_left := (units_left nodes confNames).
Local Abbreviation units_run := (units_run world p relaunch nodes confNames).
Local Abbreviation steps_left := (steps_left nodes confNames).

Lemma node_failures_from_lt (i j : nat) :
  (j < length confNames)%nat →
  node_failures_from i j = option_list (recreateContainer i j) ++ node_failures_from i (S j).
Proof.
  intros Hj. unfold node_failures_from.
  replace (length confNames - j)%nat with (S (length confNames - S j)) by lia.
  simpl. by destruct (recreateContainer i j).
Qed.

Lemma node_failures_from_ge (i j : nat) :
  (length confNames ≤ j)%nat → node_failures_from i j = [].
Proof.
  intros Hj. unfold node_failures_from.
  by replace (length confNames - j)%nat with 0%nat by lia.
Qed.

Lemma run_failures_from_lt (i : nat) :
  (i < length nodes)%nat →
  run_failures_from i = node_failures_from i 0 ++ run_failures_from (S i).
Proof.
  intros Hi. unfold run_failures_from.
  by replace (length nodes - i)%nat with (S (length nodes - S i)) by lia.
Qed.

Lemma run_failures_from_ge (i : nat) :
  (length nodes ≤ i)%nat → run_failures_from i = [].
Proof.
  intros Hi. unfold run_failures_from.
  by replace (length nodes - i)%nat with 0%nat by lia.
Qed.

Lemma consistent_initial : consistent (initial).
Proof.
  unfold consistent, owed. simpl.
  rewrite app_nil_r. split; [done|]. split; [done|lia].
Qed.

(** A step of any goroutine keeps the state consistent. *)
Lemma step_consistent (pk : pick) (s s' : state) :
  consistent s → step pk s = Some s' → consistent s'.
Proof.
  unfold consistent, owed.
  destruct s as [m gs w ch]. simpl.
  destruct m as [i|r]; last first.
  { intros [-> _]. by destruct pk as [|k]. }
  intros (Hperm & Hwg & Hcap). destruct pk as [|k]; simpl.
  - destruct (decide (i < length nodes)%nat) as [Hi|Hi].
    + intros [= <-]. simpl. rewrite length_app. simpl.
      split; [|split; [lia|done]].
      rewrite <-Hperm, (run_failures_from_lt i Hi), bind_app, bind_singleton. simpl.
      solve_Permutation.
    + destruct w as [|w]; [|done]. intros [= <-]. simpl.
      symmetry in Hwg. apply nil_length_inv in Hwg as ->.
      split; [done|]. exists ch. split; [|done].
      rewrite <-Hperm, run_failures_from_ge by lia. simpl. by rewrite app_nil_r.
  - destruct (gs !! k) as [g|] eqn:Hk; [|done]. simpl.
    assert (length (delete k gs) = length gs - 1)%nat as Hlen
      by (apply length_delete; by eexists).
    assert (0 < length gs)%nat as Hpos by (apply lookup_lt_Some in Hk; lia).
    pose proof (bind_delete owed_by gs k g Hk) as Hpool.
    rewrite Hpool in Hperm. clear Hpool.
    unfold done. simpl.
    destruct g as [i' j|i' j|e]; simpl in *.
    + destruct (decide (j < length confNames)%nat) as [Hj|Hj].
      * intros [= <-]. simpl. rewrite length_app. simpl.
        split; [|split; [lia|done]].
        rewrite <-Hperm, (node_failures_from_lt i' j Hj), bind_app, bind_cons,
          bind_singleton. simpl.
        solve_Permutation.
      * destruct w as [|w]; [lia|]. intros [= <-]. simpl.
        split; [|split; [lia|done]].
        rewrite <-Hperm, (node_failures_from_ge i' j) by lia. done.
    + destruct (recreateContainer i' j) as [e|].
      * intros [= <-]. simpl. rewrite length_app. simpl.
        split; [|split; [lia|done]].
        rewrite <-Hperm, bind_app, bind_singleton. simpl. solve_Permutation.
      * destruct w as [|w]; [lia|]. intros [= <-]. simpl.
        split; [|split; [lia|done]]. by rewrite <-Hperm.
    + unfold errChan_cap.
      destruct (decide (length ch < length nodes)%nat) as [Hroom|Hroom]; [|done].
      destruct w as [|w]; [lia|]. intros [= <-]. simpl. rewrite length_app. simpl.
      split; [|split; lia].
      rewrite <-Hperm. solve_Permutation.
Qed.

Lemma run_consistent (sched : list pick) :
  ∀ s s', consistent s → run sched s = Some s' → consistent s'.
Proof.
  induction sched as [|pk sched IH]; intros s s' Hs; simpl.
  - by intros [= <-].
  - destruct (step pk s) as [s1|] eqn:Hstep; [|done].
    apply IH. by apply (step_consistent pk s).
Qed.

(** A step uses up at least one of the steps left. *)
Lemma step_steps_left (pk : pick) (s s' : state) :
  step pk s = Some s' → (steps_left s' < steps_left s)%nat.
Proof.
  unfold steps_left. destruct s as [m gs w ch]. simpl.
  destruct pk as [|k]; simpl.
  - destruct m as [i|r]; [|done].
    destruct (decide (i < length nodes)%nat) as [Hi|Hi].
    + intros [= <-]. simpl. rewrite sum_list_with_app. simpl.
      replace (length nodes - i)%nat with (S (length nodes - S i)) by lia. lia.
    + destruct w as [|w]; [|done]. intros [= <-]. simpl. lia.
  - destruct (gs !! k) as [g|] eqn:Hk; [|done]. simpl.
    rewrite (sum_list_with_delete steps_of gs k g Hk).
    unfold done. simpl.
    destruct g as [i' j|i' j|e]; simpl.
    + destruct (decide (j < length confNames)%nat) as [Hj|Hj].
      * intros [= <-]. simpl. rewrite sum_list_with_app. simpl.
        replace (length confNames - j)%nat with (S (length confNames - S j)) by lia.
        lia.
      * destruct w as [|w]; [done|]. intros [= <-]. simpl. lia.
    + destruct (recreateContainer i' j) as [e|].
      * intros [= <-]. simpl. rewrite sum_list_with_app. simpl. lia.
      * destruct w as [|w]; [done|]. intros [= <-]. simpl. lia.
    + destruct (decide _); [|done].
      destruct w as [|w]; [done|]. intros [= <-]. simpl. lia.
Qed.

(** No run is longer than the bound of the state it starts in. *)
Lemma run_length (sched : list pick) :
  ∀ s s', run sched s = Some s' → (length sched + steps_left s' ≤ steps_left s)%nat.
Proof.
  induction sched as [|pk sched IH]; intros s s'; simpl.
  - intros [= <-]. lia.
  - destruct (step pk s) as [s1|] eqn:Hstep; [|done].
    intros Hrun. apply IH in Hrun. apply step_steps_left in Hstep. lia.
Qed.

Lemma run_app (sched1 sched2 : list pick) (s s1 : state) :
  run sched1 s = Some s1 → run (sched1 ++ sched2) s = run sched2 s1.
Proof.
  revert s. induction sched1 as [|pk sched1 IH]; intros s; simpl.
  - by intros [= <-].
  - destruct (step pk s) as [s0|]; [|done]. apply IH.
Qed.

(** With room in the channel for every error of the run, a state in which
    the call has not returned has a goroutine that can move. *)
Lemma step_progress (s : state) :
  (length unit_failures ≤ length nodes)%nat →
  consistent s →
  (∃ r, main s = Returned r) ∨ (∃ pk s', step pk s = Some s').
Proof.
  intros Hroom. unfold consistent, owed.
  destruct s as [m gs w ch]. simpl.
  destruct m as [i|r]; [|left; by eexists].
  intros (Hperm & Hwg & Hcap). right.
  destruct (decide (i < length nodes)%nat) as [Hi|Hi].
  { exists PickMain. simpl. rewrite decide_True by done. by eexists. }
  destruct gs as [|g gs].
  { exists PickMain. simpl. rewrite decide_False by done. simpl in Hwg. subst w.
    by eexists. }
  exists (PickGoroutine 0). simpl. simpl in Hwg. subst w. unfold done. simpl.
  destruct g as [i' j|i' j|e].
  - destruct (decide _); by eexists.
  - destruct (recreateContainer i' j); by eexists.
  - unfold errChan_cap. rewrite decide_True; [by eexists|].
    apply Permutation_length in Hperm. rewrite !length_app in Hperm.
    simpl in Hperm. lia.
Qed.

(** From a consistent state with room for every error, some schedule
    brings the call to its return. *)
Lemma run_completes :
  (length unit_failures ≤ length nodes)%nat →
  ∀ (n : nat) (s : state),
    (steps_left s ≤ n)%nat → consistent s →
    ∃ sched s' r, run sched s = Some s' ∧ main s' = Returned r.
Proof.
  intros Hroom. induction n as [|n IH]; intros s Hn Hs.
  - destruct (step_progress s Hroom Hs) as [[r Hr]|(pk & s' & Hstep)].
    + exists [], s, r. done.
    + apply step_steps_left in Hstep. lia.
  - destruct (step_progress s Hroom Hs) as [[r Hr]|(pk & s' & Hstep)].
    + exists [], s, r. done.
    + destruct (IH s') as (sched & s'' & r & Hrun & Hr).
      * apply step_steps_left in Hstep. lia.
      * by apply (step_consistent pk s).
      * exists (pk :: sched), s'', r. simpl. by rewrite Hstep.
Qed.

(** A returned call has seen every goroutine end and has every error of
    the run in its result. *)
Lemma run_returned (sched : list pick) (s : state) (r : option error) :
  run sched initial = Some s → main s = Returned r →
  goroutines s = []
  ∧ ∃ errs, errs ≡ₚ unit_failures ∧ (length errs ≤ length nodes)%nat
            ∧ r = collect errs.
Proof.
  intros Hrun Hr. apply (run_consistent sched initial) in Hrun; [|apply consistent_initial].
  unfold consistent in Hrun. by rewrite Hr in Hrun.
Qed.

Lemma node_units_from_lt (i j : nat) :
  (j < length confNames)%nat →
  node_units_from i j = (i, j) :: node_units_from i (S j).
Proof.
  intros Hj. unfold node_units_from.
  by replace (length confNames - j)%nat with (S (length confNames - S j)) by lia.
Qed.

Lemma node_units_from_ge (i j : nat) :
  (length confNames ≤ j)%nat → node_units_from i j = [].
Proof.
  intros Hj. unfold node_units_from.
  by replace (length confNames - j)%nat with 0%nat by lia.
Qed.

Lemma run_units_from_lt (i : nat) :
  (i < length nodes)%nat →
  run_units_from i = node_units_from i 0 ++ run_units_from (S i).
Proof.
  intros Hi. unfold run_units_from.
  by replace (length nodes - i)%nat with (S (length nodes - S i)) by lia.
Qed.

Lemma run_units_from_ge (i : nat) :
  (length nodes ≤ i)%nat → run_units_from i = [].
Proof.
  intros Hi. unfold run_units_from.
  by replace (length nodes - i)%nat with 0%nat by lia.
Qed.

(** The units of a run are the pairs of a node and a configuration
    name. *)
Lemma elem_of_all_units (i j : nat) :
  (i, j) ∈ all_units ↔ (i < length nodes)%nat ∧ (j < length confNames)%nat.
Proof.
  unfold all_units, run_units_from, node_units_from.
  rewrite list_elem_of_bind. split.
  - intros (i' & Hj & Hi). apply elem_of_seq in Hi.
    apply list_elem_of_fmap in Hj as (j' & [= -> ->] & Hj). apply elem_of_seq in Hj. lia.
  - intros [Hi Hj]. exists i. split.
    + apply list_elem_of_fmap. exists j. split; [done|]. apply elem_of_seq. lia.
    + apply elem_of_seq. lia.
Qed.

Lemma NoDup_all_units : NoDup all_units.
Proof.
  unfold all_units, run_units_from, node_units_from. apply NoDup_bind.
  - intros i1 i2 [i j] _ _ H1 H2.
    apply list_elem_of_fmap in H1 as (j1 & [= -> ->] & _).
    by apply list_elem_of_fmap in H2 as (j2 & [= -> _] & _).
  - intros i _. apply NoDup_fmap_2_strong; [|apply NoDup_seq].
    by intros j1 j2 _ _ [= ->].
  - apply NoDup_seq.
Qed.

(** A step takes the unit it runs, and no other, out of the units left. *)
Lemma step_units (pk : pick) (s s' : state) :
  step pk s = Some s' → unit_run_by pk s ++ units_left s' ≡ₚ units_left s.
Proof.
  unfold units_left, unit_run_by. destruct s as [m gs w ch]. simpl.
  destruct pk as [|k]; simpl.
  - destruct m as [i|r]; [|done].
    destruct (decide (i < length nodes)%nat) as [Hi|Hi].
    + intros [= <-]. simpl.
      rewrite (run_units_from_lt i Hi), bind_app, bind_singleton. simpl.
      solve_Permutation.
    + destruct w as [|w]; [|done]. intros [= <-]. simpl.
      by rewrite run_units_from_ge by lia.
  - destruct (gs !! k) as [g|] eqn:Hk; [|done]. simpl.
    rewrite (bind_delete units_of gs k g Hk).
    unfold done. simpl.
    destruct g as [i' j|i' j|e]; simpl.
    + destruct (decide (j < length confNames)%nat) as [Hj|Hj].
      * intros [= <-]. simpl.
        rewrite (node_units_from_lt i' j Hj), bind_app, bind_cons, bind_singleton.
        simpl. solve_Permutation.
      * destruct w as [|w]; [done|]. intros [= <-]. simpl.
        by rewrite (node_units_from_ge i' j) by lia.
    + destruct (recreateContainer i' j) as [e|].
      * intros [= <-]. simpl. rewrite bind_app, bind_singleton. simpl.
        solve_Permutation.
      * destruct w as [|w]; [done|]. intros [= <-]. simpl. solve_Permutation.
    + destruct (decide _); [|done].
      destruct w as [|w]; [done|]. by intros [= <-].
Qed.

Lemma run_units (sched : list pick) :
  ∀ s s', run sched s = Some s' → units_run sched s ++ units_left s' ≡ₚ units_left s.
Proof.
  induction sched as [|pk sched IH]; intros s s'; simpl.
  - by intros [= <-].
  - destruct (step pk s) as [s1|] eqn:Hstep; [|done].
    intros Hrun. rewrite <-(step_units pk s s1 Hstep), <-(IH s1 s' Hrun).
    by rewrite (assoc_L (++)).
Qed.

(** Before a call returns every unit has run, once. *)
Lemma run_returned_units (sched : list pick) (s : state) (r : option error) :
  run sched initial = Some s → main s = Returned r →
  units_run sched initial ≡ₚ all_units.
Proof.
  intros Hrun Hr.
  destruct (run_returned sched s r Hrun Hr) as [Hgs _].
  apply run_units in Hrun. unfold units_left in Hrun.
  rewrite Hr, Hgs in Hrun. simpl in Hrun.
  by rewrite !app_nil_r in Hrun.
Qed.

(** More errors than nodes: the call does not return, whatever the
    schedule. *)
Lemma run_never_returns (sched : list pick) (s : state) :
  (length nodes < length unit_failures)%nat →
  run sched initial = Some s → ∃ i, main s = Spawning i.
Proof.
  intros Hmore Hrun. destruct (main s) as [i|r] eqn:Hmain; [by eexists|].
  destruct (run_returned sched s r Hrun Hmain) as (_ & errs & Hperm & Hlen & _).
  apply Permutation_length in Hperm. lia.
Qed.

End Interleaving.

Lemma ensureContainersStarted_run (sched : list pick) (world : World)
    (p : DockerProvisioner) (relaunch : bool) (nodes nodes' : list Node)
    (confNames : list string) :
  FindAllScopedConfigNames world nodeContainerCollection = Ok confNames →
  (if decide (length nodes = 0)%nat then UnfilteredNodes world else Ok nodes) = Ok nodes' →
  ensureContainersStarted sched world p relaunch nodes =
    match run world p relaunch nodes' confNames sched initial with
    | Some s => match main s with Returned r => Some r | Spawning _ => None end
    | None => None
    end.
Proof. intros Hnames Hnodes. unfold ensureContainersStarted. by rewrite Hnames, Hnodes. Qed.

(** An error of the listing of the configuration names, or of the nodes
    when none is given, is returned as it is, and no unit runs. *)
Lemma ensureContainersStarted_listing_errors (sched : list pick) (world : World)
    (p : DockerProvisioner) (relaunch : bool) (nodes : list Node) (err : error) :
  (FindAllScopedConfigNames world nodeContainerCollection = Failed err →
   ensureContainersStarted sched world p relaunch nodes = Some (Some err))
  ∧ (∀ confNames,
       FindAllScopedConfigNames world nodeContainerCollection = Ok confNames →
       nodes = [] → UnfilteredNodes world = Failed err →
       ensureContainersStarted sched world p relaunch nodes = Some (Some err)).
Proof.
  unfold ensureContainersStarted. split.
  - by intros ->.
  - intros confNames -> -> ->. done.
Qed.

(** C1, as the code has it.  An error of the listing of the
    configuration names is returned as it is, and so is an error of the
    listing of the nodes when no node is given: the call returns it under
    every schedule, the empty one too, so without a step of a unit, and
    whatever the units would report.  When the configuration names and
    the nodes are obtained: before a call returns every unit, a node and
    a configuration name, has run once, whatever other units reported,
    and every goroutine of the run has ended; the result is [nil] exactly
    when no unit reported an error, and otherwise the one error
    ["multiple errors: ..."] whose message holds the message of every
    error reported by a unit; and when the units report no more errors
    than there are nodes, no schedule blocks the call, every schedule is
    finite, and the call returns. *)
Theorem ensureContainersStarted_aggregates (world : World) (p : DockerProvisioner)
    (relaunch : bool) (nodes : list Node) :
  (∀ err sched,
     FindAllScopedConfigNames world nodeContainerCollection = Failed err →
     ensureContainersStarted sched world p relaunch nodes = Some (Some err))
  ∧ (∀ confNames err sched,
       FindAllScopedConfigNames world nodeContainerCollection = Ok confNames →
       length nodes = 0%nat →
       UnfilteredNodes world = Failed err →
       ensureContainersStarted sched world p relaunch nodes = Some (Some err))
  ∧ ∀ confNames nodes',
  FindAllScopedConfigNames world nodeContainerCollection = Ok confNames →
  (if decide (length nodes = 0)%nat then UnfilteredNodes world else Ok nodes) = Ok nodes' →
  let failures := unit_failures world p relaunch nodes' confNames in
  (∀ sched s r,
      run world p relaunch nodes' confNames sched initial = Some s →
      main s = Returned r →
      ensureContainersStarted sched world p relaunch nodes = Some r
      ∧ goroutines s = []
      ∧ units_run world p relaunch nodes' confNames sched initial
        ≡ₚ all_units nodes' confNames)
  ∧ NoDup (all_units nodes' confNames)
  ∧ (∀ i j, (i, j) ∈ all_units nodes' confNames
            ↔ (i < length nodes')%nat ∧ (j < length confNames)%nat)
  ∧ (∀ sched r,
       ensureContainersStarted sched world p relaunch nodes = Some r →
       (∃ errs, errs ≡ₚ failures ∧ r = collect errs)
       ∧ (r = None ↔ failures = [])
       ∧ (∀ e, e ∈ failures →
            ∃ message, r = Some (ErrorString message) ∧ Substring (Error e) message))
  ∧ ((length failures ≤ length nodes')%nat →
       (∃ sched r, ensureContainersStarted sched world p relaunch nodes = Some r)
       ∧ (∀ sched s,
            run world p relaunch nodes' confNames sched initial = Some s →
            (∃ r, main s = Returned r)
            ∨ (∃ pk s', step world p relaunch nodes' confNames pk s = Some s'))
       ∧ (∀ sched s,
            run world p relaunch nodes' confNames sched initial = Some s →
            (length sched ≤ length nodes' * (3 * length confNames + 2) + 1)%nat)).
Proof.
  split; [|split].
  { intros err sched.
    apply (ensureContainersStarted_listing_errors sched world p relaunch nodes err). }
  { intros confNames err sched Hnames Hnone Hnodes.
    apply (ensureContainersStarted_listing_errors sched world p relaunch nodes err)
      with confNames; [done| |done].
    by destruct nodes. }
  intros confNames nodes' Hnames Hnodes failures.
  pose proof (ensureContainersStarted_run) as Hrun.
  specialize (λ sched, Hrun sched world p relaunch nodes nodes' confNames Hnames Hnodes).
  split; [|split; [|split; [|split]]].
  - intros sched s r Hs Hr. rewrite Hrun, Hs, Hr. split; [done|]. split.
    + by destruct (run_returned world p relaunch nodes' confNames sched s r Hs Hr).
    + by apply (run_returned_units world p relaunch nodes' confNames sched s r).
  - apply NoDup_all_units.
  - apply elem_of_all_units.
  - intros sched r. rewrite Hrun.
    destruct (run world p relaunch nodes' confNames sched initial) as [s|] eqn:Hs; [|done].
    destruct (main s) as [i|r'] eqn:Hr; [done|]. intros [= <-].
    destruct (run_returned world p relaunch nodes' confNames sched s r' Hs Hr)
      as (_ & errs & Hperm & _ & ->).
    split; [by exists errs|]. split.
    + rewrite collect_None. split.
      * intros ->. by apply Permutation_nil_l in Hperm.
      * fold failures in Hperm. intros Hnone. rewrite Hnone in Hperm.
        by apply Permutation_nil_r in Hperm.
    + intros e He. apply collect_Substring. by rewrite Hperm.
  - intros Hroom. split; [|split].
    + destruct (run_completes world p relaunch nodes' confNames Hroom
                  (steps_left nodes' confNames initial) initial)
        as (sched & s & r & Hs & Hr); [done|apply consistent_initial|].
      exists sched, r. by rewrite Hrun, Hs, Hr.
    + intros sched s Hs. apply step_progress; [done|].
      apply (run_consistent world p relaunch nodes' confNames sched initial);
        [apply consistent_initial|done].
    + intros sched s Hs. apply run_length in Hs.
      unfold steps_left in Hs. simpl in Hs. rewrite Nat.sub_0_r in Hs. lia.
Qed.

(** C2 at its failing input: one node whose engine cannot be reached and
    two configuration names.  Both units fail, the channel has room for
    one error, and under no schedule does the call return; the schedule
    given leads to a state in which the channel is full, one unit is at
    its send, the caller is in [wg.Wait()], and nothing can move. *)
Theorem ensureContainersStarted_blocks_forever :
  let nodes := [node_in "tcp://10.0.0.1:2375" "dev"] in
  let confNames := ["big-sibling"; "logger"] in
  length (unit_failures unreachable_engines anonymous true nodes confNames) = 2%nat
  ∧ (∀ sched,
       ensureContainersStarted sched unreachable_engines anonymous true nodes = None)
  ∧ (∃ s e,
       run unreachable_engines anonymous true nodes confNames
         (PickMain :: replicate 6 (PickGoroutine 0)) initial = Some s
       ∧ s = mkState (Spawning 1) [Sending e] 1 [e]
       ∧ ∀ pk, step unreachable_engines anonymous true nodes confNames pk s = None).
Proof.
  intros nodes confNames. split; [done|]. split.
  - intros sched.
    rewrite (ensureContainersStarted_run sched unreachable_engines anonymous true
               nodes nodes confNames eq_refl eq_refl).
    destruct (run unreachable_engines anonymous true nodes confNames sched initial)
      as [s|] eqn:Hs; [|done].
    destruct (run_never_returns unreachable_engines anonymous true nodes confNames
                sched s) as [i ->]; [|done|done].
    vm_compute. lia.
  - eexists _, _. split; [by vm_compute|]. split; [done|].
    intros [|[|k]]; done.
Qed.

(** Three nodes, two configuration names, one unit that fails: there is
    room for its error, and the call returns. *)
Lemma ensureContainersStarted_aggregates_witness :
  ∃ sched r, ensureContainersStarted sched one_full_disk anonymous false three_nodes = Some r.
Proof.
  refine (proj1 (proj2 (proj2 (proj2 (proj2
            (proj2 (proj2 (ensureContainersStarted_aggregates
                             one_full_disk anonymous false three_nodes))
               ["big-sibling"; "logger"] three_nodes _ _)))) _)).
  - reflexivity.
  - reflexivity.
  - vm_compute. lia.
Defined.

(** All six units are run, and the result names the one that failed. *)
Example ensureContainersStarted_one_of_six :
  ensureContainersStarted (replicate 3 PickMain ++ replicate 16 (PickGoroutine 0) ++ [PickMain])
    one_full_disk anonymous false three_nodes
  = Some (Some (ErrorString
      ("multiple errors: [node containers] failed to create container in "
       +:+ "tcp://10.0.0.2:2375 [dev]: no space left on device"))).
Proof. by vm_compute. Qed.

Example ensureContainersStarted_runs_all_six :
  units_run one_full_disk anonymous false three_nodes ["big-sibling"; "logger"]
    (replicate 3 PickMain ++ replicate 16 (PickGoroutine 0) ++ [PickMain]) initial
  = [(0, 0); (1, 0); (2, 0); (0, 1); (1, 1); (2, 1)]%nat.
Proof. by vm_compute. Qed.

(** C1 as stated fails: the store does not list the configuration names;
    no unit runs and none reports an error, and the call returns the
    store's error, which is no aggregate of unit errors. *)
Lemma ensureContainersStarted_returns_listing_error :
  ¬ returns_aggregate store_down anonymous true three_nodes.
Proof.
  intros Hclaim.
  destruct (Hclaim [] (Some (ErrorString "no reachable servers")) eq_refl)
    as [errs Herrs].
  destruct errs as [|e errs]; [done|].
  unfold collect in Herrs. rewrite decide_False in Herrs by done.
  injection Herrs as Herrs. discriminate.
Qed.

(** No node is given and the nodes of the cluster cannot be listed: the
    error is returned as it is, and the units, which would all fail, are
    not run. *)
Example ensureContainersStarted_nodes_not_listed (sched : list pick) :
  ensureContainersStarted sched cluster_down anonymous true []
  = Some (Some (ErrorString "no reachable servers")).
Proof. done. Qed.

(** ** Cluster hook *)

Lemma count_calls_app (kind : call → bool) (l1 l2 : list call) :
  count_calls kind (l1 ++ l2) = (count_calls kind l1 + count_calls kind l2)%nat.
Proof. unfold count_calls. by rewrite List.filter_app, length_app. Qed.

Section NoRemoval.
Context `{Collaborators}.

Lemma pullWithRetry_loop_no_removal (tries : nat) (image : string)
    (auth : AuthConfiguration) :
  ∀ buf err log,
    count_calls is_RemoveContainer (pullWithRetry_loop tries image auth buf err log).2
    = count_calls is_RemoveContainer log.
Proof.
  induction tries as [|tries IH]; intros buf err log; [done|].
  rewrite pullWithRetry_loop_S. cbn zeta.
  destruct (reply_err (answer log (PullImage image auth))).
  - rewrite IH, count_calls_app. unfold count_calls. simpl. lia.
  - simpl. rewrite count_calls_app. unfold count_calls. simpl. lia.
Qed.

Lemma pullImage_no_removal (c : NodeContainerConfig) (p : DockerProvisioner)
    (log : list call) :
  count_calls is_RemoveContainer (pullImage c p log).2
  = count_calls is_RemoveContainer log.
Proof.
  rewrite pullImage_unfold.
  pose proof (pullWithRetry_loop_no_removal (Z.to_nat 3) (image c)
                (RegistryAuthConfig p) "" None log) as Hpull.
  fold (pullWithRetry p (image c) 3 log) in Hpull.
  destruct (pullWithRetry p (image c) 3 log) as [[output err] log1].
  simpl in Hpull. destruct err as [e|]; [done|].
  destruct (shouldPinImage (image c)); [|done].
  destruct (decide _); [|done].
  simpl. rewrite count_calls_app, Hpull. unfold count_calls. simpl. lia.
Qed.

(** Without relaunch, [create] removes no container. *)
Lemma create_without_relaunch_no_removal (c : NodeContainerConfig)
    (dockerEndpoint poolName : string) (p : DockerProvisioner) (log : list call) :
  count_calls is_RemoveContainer (create c dockerEndpoint poolName p false log).2
  = count_calls is_RemoveContainer log.
Proof.
  unfold create, dockerClient, invoke, mbind, M_bind, mret, M_ret.
  pose proof (pullImage_no_removal c p (log ++ [NewClient dockerEndpoint])) as Hpull.
  rewrite count_calls_app in Hpull.
  destruct (reply_err (answer log (NewClient dockerEndpoint))).
  { simpl. rewrite count_calls_app. unfold count_calls. simpl. lia. }
  destruct (pullImage c p (log ++ [NewClient dockerEndpoint])) as [[[c' img] err] log2].
  simpl in Hpull.
  destruct err as [e|]; [unfold count_calls in *; simpl in *; lia|].
  cbn zeta. rewrite andb_false_l.
  destruct (reply_err (answer log2 _)) as [e|].
  - destruct (decide (e ≠ ErrContainerAlreadyExists)); simpl;
      rewrite ?count_calls_app; unfold count_calls in *; simpl in *; lia.
  - simpl. rewrite !count_calls_app. unfold count_calls in *. simpl in *. lia.
Qed.

End NoRemoval.

(** The stages of [RunClusterHook], given what the recreation returns.
    The hook first looks at [InitializeBS]: its error is returned under
    ["unable to initialize bs node container: "] and nothing else is
    done.  Otherwise the recreation runs for the one node given, the
    nodes of the cluster are not asked for, and its units call [create]
    without relaunch, which removes no container; an error the
    recreation returns is returned under
    ["unable to start node containers: "]; [nil] is returned exactly when
    both stages returned [nil]; the hook returns exactly when the
    recreation does, which it does when at most one unit of the node
    fails. *)
Lemma RunClusterHook_stages (sched : list pick) (world : World) (h : ClusterHook)
    (node : Node) :
  let recreation := ensureContainersStarted sched world (Provisioner h) false [node] in
  (∀ err, InitializeBS world = Some err →
     RunClusterHook sched world h node
     = Some (Some (ErrorString ("unable to initialize bs node container: " +:+ Error err))))
  ∧ (InitializeBS world = None →
     (∀ err, recreation = Some (Some err) →
        RunClusterHook sched world h node
        = Some (Some (ErrorString ("unable to start node containers: " +:+ Error err))))
     ∧ (RunClusterHook sched world h node = None ↔ recreation = None))
  ∧ (RunClusterHook sched world h node = Some None
     ↔ InitializeBS world = None ∧ recreation = Some None)
  ∧ (∀ confNames,
       FindAllScopedConfigNames world nodeContainerCollection = Ok confNames →
       recreation
       = match run world (Provisioner h) false [node] confNames sched initial with
         | Some s => match main s with Returned r => Some r | Spawning _ => None end
         | None => None
         end
       ∧ unit_failures world (Provisioner h) false [node] confNames
         = omap (recreateContainer world (Provisioner h) false [node] confNames 0)
                (seq 0 (length confNames))
       ∧ ((length (unit_failures world (Provisioner h) false [node] confNames) ≤ 1)%nat →
          InitializeBS world = None →
          ∃ sched' r, RunClusterHook sched' world h node = Some r))
  ∧ (∀ (H : Collaborators) c dockerEndpoint poolName log,
       count_calls is_RemoveContainer
         (create c dockerEndpoint poolName (Provisioner h) false log).2
       = count_calls is_RemoveContainer log).
Proof.
  intros recreation. unfold RunClusterHook. fold recreation.
  split; [|split; [|split; [|split]]].
  - by intros err ->.
  - intros ->. split.
    + by intros err ->.
    + destruct recreation as [[err|]|]; split; done.
  - destruct (InitializeBS world) as [err|].
    + split; [done|]. by intros [? _].
    + destruct recreation as [[err|]|]; split; try done; by intros [_ ?].
  - intros confNames Hnames. split; [|split].
    + by apply ensureContainersStarted_run.
    + unfold unit_failures, run_failures_from, node_failures_from. simpl.
      by rewrite app_nil_r, Nat.sub_0_r.
    + intros Hroom Hinit.
      destruct (run_completes world (Provisioner h) false [node] confNames Hroom
                  (steps_left [node] confNames initial) initial)
        as (sched' & s & r & Hs & Hr); [done|apply consistent_initial|].
      exists sched'. rewrite Hinit.
      rewrite (ensureContainersStarted_run sched' world (Provisioner h) false
                 [node] [node] confNames Hnames eq_refl), Hs, Hr.
      destruct r as [err|]; by eexists.
  - intros H c dockerEndpoint poolName log. apply create_without_relaunch_no_removal.
Qed.

(** The baseline cannot be written: the hook says so and stops. *)
Example RunClusterHook_baseline_error :
  RunClusterHook [] baseline_fails (mkClusterHook anonymous)
    (node_in "tcp://10.0.0.1:2375" "dev")
  = Some (Some (ErrorString "unable to initialize bs node container: duplicate key")).
Proof.
  refine (proj1 (RunClusterHook_stages [] baseline_fails (mkClusterHook anonymous)
                   (node_in "tcp://10.0.0.1:2375" "dev"))
                (ErrorString "duplicate key") _).
  reflexivity.
Qed.

(** A node joins, both stages succeed, the hook returns [nil]. *)
Example RunClusterHook_new_node :
  RunClusterHook (PickMain :: replicate 5 (PickGoroutine 0) ++ [PickMain])
    (fleet ["big-sibling"; "logger"] (λ _ _, scripted [] no_digest))
    (mkClusterHook anonymous) (node_in "tcp://10.0.0.4:2375" "dev")
  = Some None.
Proof. by vm_compute. Qed.

(** One unit of the node fails: there is room for its error, and the
    hook returns it under the message of the second stage. *)
Example RunClusterHook_one_failure :
  RunClusterHook (PickMain :: replicate 6 (PickGoroutine 0) ++ [PickMain])
    (fleet ["big-sibling"; "logger"]
       (λ _ j, if decide (j = 0)%nat
               then scripted [succeeds ""; fails (ErrorString "registry timeout");
                              fails (ErrorString "registry timeout");
                              fails (ErrorString "registry timeout")] no_digest
               else scripted [] no_digest))
    (mkClusterHook anonymous) joining_node
  = Some (Some (ErrorString
      ("unable to start node containers: multiple errors: " +:+ Error pull_failure))).
Proof. by vm_compute. Qed.

(** The hook's channel has room for one error: when two units of the
    node or more fail, the hook returns under no schedule. *)
Lemma RunClusterHook_never_returns (sched : list pick) (world : World)
    (h : ClusterHook) (node : Node) (confNames : list string) :
  InitializeBS world = None →
  FindAllScopedConfigNames world nodeContainerCollection = Ok confNames →
  (2 ≤ length (unit_failures world (Provisioner h) false [node] confNames))%nat →
  RunClusterHook sched world h node = None.
Proof.
  intros Hinit Hnames Hmore. unfold RunClusterHook. rewrite Hinit.
  rewrite (ensureContainersStarted_run sched world (Provisioner h) false
             [node] [node] confNames Hnames eq_refl).
  destruct (run world (Provisioner h) false [node] confNames sched initial)
    as [s|] eqn:Hs; [|done].
  destruct (run_never_returns world (Provisioner h) false [node] confNames sched s)
    as [i ->]; [|done|done].
  simpl. lia.
Qed.

(** C8 at its failing input: a node joins, the baseline is in place, and
    on the node the engine gives a client and each of the three pulls of
    either image fails.  The second stage has failed, twice: both units
    of the node report an error.  The channel of the recreation has room
    for one, so under no schedule does the hook return, and the failure
    is not returned under ["unable to start node containers: "] or under
    any other message; the schedule given leads to a state in which the
    channel is full, the second unit is at its send, the caller is in
    [wg.Wait()], and nothing can move. *)
Theorem RunClusterHook_blocks_forever :
  let h := mkClusterHook anonymous in
  let confNames := ["big-sibling"; "logger"] in
  InitializeBS registry_down = None
  ∧ FindAllScopedConfigNames registry_down nodeContainerCollection = Ok confNames
  ∧ (∀ j name, confNames !! j = Some name →
       (create (H := unit_collaborators registry_down 0 j) (stored name)
          (Address joining_node) "dev" anonymous false []).2
       = [NewClient (Address joining_node);
          PullImage ("tsuru/" +:+ name +:+ ":v1") (RegistryAuthConfig anonymous);
          PullImage ("tsuru/" +:+ name +:+ ":v1") (RegistryAuthConfig anonymous);
          PullImage ("tsuru/" +:+ name +:+ ":v1") (RegistryAuthConfig anonymous)]
       ∧ recreateContainer registry_down anonymous false [joining_node] confNames 0 j
         = Some pull_failure)
  ∧ unit_failures registry_down anonymous false [joining_node] confNames
    = [pull_failure; pull_failure]
  ∧ (∀ sched, RunClusterHook sched registry_down h joining_node = None)
  ∧ (∃ s,
       run registry_down anonymous false [joining_node] confNames
         (PickMain :: replicate 6 (PickGoroutine 0)) initial = Some s
       ∧ s = mkState (Spawning 1) [Sending pull_failure] 1 [pull_failure]
       ∧ ∀ pk, step registry_down anonymous false [joining_node] confNames pk s = None).
Proof.
  intros h confNames. split; [done|]. split; [done|]. split; [|split; [|split]].
  - intros [|[|j]] name; [intros [= <-]; by vm_compute .. | done].
  - by vm_compute.
  - intros sched.
    apply (RunClusterHook_never_returns sched registry_down h joining_node confNames);
      [done|done|].
    vm_compute. lia.
  - eexists. split; [by vm_compute|]. split; [done|].
    intros [|[|k]]; done.
Qed.

(** * Further properties *)

(** ** EnvMap: lookups and round trip *)

Lemma EnvMap_range_lookup (env : list string) :
  ∀ (envMap m : gmap string string) (k : string),
    EnvMap_range env envMap = Some m →
    m !! k = match last (env_values k env) with
             | Some v => Some v
             | None => envMap !! k
             end.
Proof.
  induction env as [|e env IH]; intros envMap m k; cbn [EnvMap_range].
  - by intros [= <-].
  - rewrite SplitN_2. unfold env_values. cbn [omap list_omap].
    fold (env_values k env).
    destruct (Cut e "=") as [[k' v]|]; simpl; [|done].
    intros Hrange. rewrite (IH _ _ k Hrange).
    destruct (decide (k' = k)) as [->|Hne].
    + rewrite last_cons. destruct (last (env_values k env)); [done|].
      by rewrite lookup_insert_eq.
    + destruct (last (env_values k env)); [done|]. by rewrite lookup_insert_ne.
Qed.

(** X1.  In the map [EnvMap] returns, a key is bound to the value of the
    last entry of [Config.Env] that starts with the key and ['=']; what
    follows the first ['='] of an entry is its value, further ['=']
    included; a key that starts no entry is not bound. *)
Theorem EnvMap_last_entry_wins (c : NodeContainerConfig) (m : gmap string string)
    (k : string) :
  EnvMap c = Some m →
  m !! k = last (env_values k (Env (Config_ c))).
Proof.
  intros Hm. rewrite (EnvMap_range_lookup _ _ _ k Hm), lookup_empty.
  by destruct (last _).
Qed.

Lemma EnvMap_last_entry_wins_witness :
  (<["PATH" := "/bin"]> (<["OPTS" := "-a=1"]> ∅) : gmap string string) !! "PATH"
  = Some "/bin".
Proof.
  apply (EnvMap_last_entry_wins
           (mkNodeContainerConfig "bs" ""
              (mkConfig "tsuru/bs" ["PATH=/usr/bin"; "OPTS=-a=1"; "PATH=/bin"] [])
              (mkHostConfig [] "" false))).
  vm_compute. reflexivity.
Defined.

Lemma EnvMap_range_Some (env : list string) :
  ∀ envMap, Forall (λ e, ContainsByte e "=" = true) env →
            is_Some (EnvMap_range env envMap).
Proof.
  intros envMap Hall. apply not_eq_None_Some. rewrite EnvMap_range_None.
  rewrite <-Forall_Exists_neg. eapply Forall_impl; [done|].
  intros e He. by rewrite He.
Qed.

Lemma env_values_of_pairs (k : string) (l : list (string * string)) :
  Forall (λ kv, ContainsByte kv.1 "=" = false) l →
  env_values k ((λ kv, kv.1 +:+ "=" +:+ kv.2) <$> l)
  = omap (λ kv, if decide (kv.1 = k) then Some kv.2 else None) l.
Proof.
  induction 1 as [|[k' v] l Hk' _ IH]; [done|].
  unfold env_values in *. cbn [fmap list_fmap omap list_omap fst snd]. simpl in Hk'.
  rewrite append_String, append_empty_l, (Cut_at_first k' v "=" Hk').
  cbn [fst snd]. by rewrite IH.
Qed.

Lemma omap_absent_key (k : string) (l : list (string * string)) :
  k ∉ l.*1 →
  omap (λ kv, if decide (kv.1 = k) then Some kv.2 else None) l = [].
Proof.
  induction l as [|[k2 v2] l IH]; [done|].
  rewrite fmap_cons, not_elem_of_cons. intros [Hk2 Hk]. cbn [omap list_omap fst snd].
  rewrite decide_False by done. by apply IH.
Qed.

Lemma last_omap_NoDup (k : string) (l : list (string * string)) :
  NoDup l.*1 →
  last (omap (λ kv, if decide (kv.1 = k) then Some kv.2 else None) l)
  = (list_to_map l : gmap string string) !! k.
Proof.
  induction l as [|[k' v] l IH]; [done|].
  rewrite fmap_cons, NoDup_cons. intros [Hk' Hnd].
  cbn [omap list_omap fst snd list_to_map foldr] in *.
  destruct (decide (k' = k)) as [->|Hne].
  - by rewrite lookup_insert_eq, (omap_absent_key k l Hk').
  - rewrite lookup_insert_ne by done. by apply IH.
Qed.

(** X2.  A map whose keys have no ['='], written as [key=value] entries
    of [Config.Env], is what [EnvMap] gives back. *)
Theorem EnvMap_of_map (c : NodeContainerConfig) (m : gmap string string) :
  (∀ k v, m !! k = Some v → ContainsByte k "=" = false) →
  EnvMap (set_Env c (env_of_map m)) = Some m.
Proof.
  intros Hkeys. unfold EnvMap. simpl.
  assert (Forall (λ kv : string * string, ContainsByte kv.1 "=" = false) (map_to_list m))
    as Hall.
  { apply Forall_forall. intros [k v] Hkv. apply elem_of_map_to_list in Hkv.
    by apply (Hkeys k v). }
  destruct (EnvMap_range_Some (env_of_map m) ∅) as [m' Hm'].
  { unfold env_of_map. apply Forall_fmap. eapply Forall_impl; [done|].
    intros [k v] Hk. simpl in *.
    by rewrite ContainsByte_append, append_String, orb_comm. }
  rewrite Hm'. f_equal. apply map_eq. intros k.
  rewrite (EnvMap_range_lookup _ _ _ k Hm'), lookup_empty.
  unfold env_of_map. rewrite (env_values_of_pairs k _ Hall).
  rewrite last_omap_NoDup by apply NoDup_fst_map_to_list.
  rewrite list_to_map_to_list. by destruct (m !! k).
Qed.

Lemma EnvMap_of_map_witness :
  EnvMap (set_Env (big_sibling "tsuru/bs")
            (env_of_map (<["PATH" := "/bin"]> (<["OPTS" := "-a=1"]> ∅))))
  = Some (<["PATH" := "/bin"]> (<["OPTS" := "-a=1"]> ∅)).
Proof.
  apply (EnvMap_of_map (big_sibling "tsuru/bs")).
  intros k v Hkv.
  apply lookup_insert_Some in Hkv as [[<- _]|[_ Hkv]]; [reflexivity|].
  apply lookup_insert_Some in Hkv as [[<- _]|[_ Hkv]]; [reflexivity|].
  by rewrite lookup_empty in Hkv.
Defined.

(** ** Registry: a valid configuration goes to the store *)

(** X3.  A configuration with a name, and with no image unless the pool
    is the default one, passes [validate]; [AddNewContainer] then makes
    one call, [Save] on the scoped configuration of the collection
    [nodeContainer] under the configuration's name, and
    [UpdateContainer] one call, [SaveMerge]; both hand back the store's
    error as it is. *)
Theorem valid_configuration_is_stored `{Collaborators} (pool : string)
    (c : NodeContainerConfig) (log : list call) :
  Name c ≠ "" →
  Image (Config_ c) = "" ∨ pool = "" →
  let conf := mkScopedConfig "nodeContainer" (Name c) true true true in
  validate c pool = None
  ∧ AddNewContainer pool c log
    = (reply_err (answer log (Save conf pool c)), log ++ [Save conf pool c])
  ∧ UpdateContainer pool c log
    = (reply_err (answer log (SaveMerge conf pool c)), log ++ [SaveMerge conf pool c]).
Proof.
  intros Hname Himage conf.
  assert (validate c pool = None) as Hvalid.
  { unfold validate. rewrite decide_False by done.
    rewrite decide_False; [done|]. intros [? ?]. by destruct Himage. }
  unfold AddNewContainer, UpdateContainer. by rewrite Hvalid.
Qed.

Lemma valid_configuration_is_stored_witness :
  AddNewContainer
    (H := scripted [fails (ErrorString "duplicate key")] no_digest)
    "" (big_sibling "tsuru/bs") []
  = (Some (ErrorString "duplicate key"),
     [Save (mkScopedConfig "nodeContainer" "big-sibling" true true true) ""
           (big_sibling "tsuru/bs")]).
Proof.
  refine (proj1 (proj2 (valid_configuration_is_stored
            (H := scripted [fails (ErrorString "duplicate key")] no_digest)
            "" (big_sibling "tsuru/bs") [] _ _))).
  - discriminate.
  - right. reflexivity.
Defined.

(** ** Puller: what a call of [pullWithRetry] can have done *)

Section PullerBounds.
Context `{Collaborators}.
Variables (log : list call) (image : string) (auth : AuthConfiguration).

Local Abbreviation attempt := (pull_attempt log image auth).

(** Among the first [n] attempts either all fail, or there is a first one
    that succeeds. *)
Lemma first_successful_attempt (n : nat) :
  (∀ k, (k < n)%nat → reply_err (attempt k) ≠ None)
  ∨ (∃ k, (k < n)%nat ∧ reply_err (attempt k) = None
          ∧ ∀ k', (k' < k)%nat → reply_err (attempt k') ≠ None).
Proof.
  induction n as [|n [Hall|(k & Hk & Hok & Hbefore)]].
  - left. intros k Hk. lia.
  - destruct (reply_err (attempt n)) as [e|] eqn:Hn.
    + left. intros k Hk. destruct (decide (k = n)) as [->|Hne]; [by rewrite Hn|].
      apply Hall. lia.
    + right. exists n. split; [lia|]. split; [done|]. intros k' Hk'. by apply Hall.
  - right. exists k. split; [lia|done].
Qed.

End PullerBounds.

(** X4.  Whatever the engine answers, [pullWithRetry] appends to the log
    only pulls of the image, at most [maxTries] of them, and none when
    [maxTries <= 0]; every attempt but the last one made has failed; an
    error comes with the empty string and only after all [maxTries]
    attempts, and is the error of the last one; without error and with an
    attempt made, the last attempt succeeded and the output is what all
    attempts wrote. *)
Theorem pullWithRetry_calls `{Collaborators} (p : DockerProvisioner) (image : string)
    (maxTries : Z) (log : list call) :
  let auth := RegistryAuthConfig p in
  let result := pullWithRetry p image maxTries log in
  ∃ k : nat,
    (Z.of_nat k ≤ Z.max 0 maxTries)%Z
    ∧ result.2 = log ++ replicate k (PullImage image auth)
    ∧ (∀ k', (S k' < k)%nat → reply_err (pull_attempt log image auth k') ≠ None)
    ∧ (∀ e, result.1.2 = Some e →
         result.1.1 = "" ∧ Z.of_nat k = maxTries
         ∧ reply_err (pull_attempt log image auth (k - 1)) = Some e)
    ∧ (result.1.2 = None → (0 < k)%nat →
         reply_err (pull_attempt log image auth (k - 1)) = None
         ∧ result.1.1 = pull_output log image auth k).
Proof.
  intros auth result. subst result. unfold pullWithRetry. fold auth.
  destruct (first_successful_attempt log image auth (Z.to_nat maxTries))
    as [Hall|(k & Hk & Hok & Hbefore)].
  - pose proof (pullWithRetry_loop_failure log image auth (Z.to_nat maxTries)
                  0 None) as Hloop.
    simpl in Hloop. rewrite app_nil_r in Hloop. rewrite Hloop by done.
    exists (Z.to_nat maxTries). simpl. split; [lia|]. split; [done|].
    split; [intros k' Hk'; apply Hall; lia|]. split.
    + intros e He. destruct (Z.to_nat maxTries) as [|t] eqn:Ht; [done|].
      split; [done|]. split; [lia|]. by rewrite Nat.sub_1_r.
    + intros Hnone Hpos. destruct (Z.to_nat maxTries) as [|t] eqn:Ht; [lia|].
      exfalso. apply (Hall t); [lia|done].
  - pose proof (pullWithRetry_loop_success log image auth (Z.to_nat maxTries)
                  0 k None Hk Hbefore Hok) as Hloop.
    simpl in Hloop. rewrite app_nil_r in Hloop. rewrite Hloop.
    exists (S k). simpl. split; [lia|]. split; [done|].
    split; [intros k' Hk'; apply Hbefore; lia|]. split; [done|].
    intros _ _. by rewrite Nat.sub_0_r.
Qed.

(** ** Image resolver: a pinned image stays pinned *)

Lemma Cut_append_None (a b : string) (sep : ascii) :
  Cut a sep = None →
  Cut (a +:+ b) sep = match Cut b sep with
                      | Some (x, y) => Some (a +:+ x, y)
                      | None => None
                      end.
Proof.
  induction a as [|z a IH].
  { rewrite append_empty_l. by destruct (Cut b sep) as [[x y]|]. }
  rewrite append_String. simpl.
  destruct (Ascii.eqb z sep); [done|].
  destruct (Cut a sep) as [[x y]|]; [done|]. intros _. rewrite (IH eq_refl).
  by destruct (Cut b sep) as [[x y]|].
Qed.

Lemma SplitN_last_is_Some (n : nat) (sep : ascii) :
  ∀ s, is_Some (last (SplitN s sep (S n))).
Proof.
  induction n as [|n IH]; intros s; [by eexists|].
  rewrite SplitN_SS. destruct (Cut s sep) as [[x y]|]; [|by eexists].
  rewrite last_cons. destruct (IH y) as [piece ->]. by eexists.
Qed.

(** Text without the separator, put after a string, ends up after the
    last piece of its split. *)
Lemma SplitN_last_append (n : nat) (sep : ascii) (t : string) :
  ContainsByte t sep = false →
  ∀ s piece,
    last (SplitN s sep (S n)) = Some piece →
    last (SplitN (s +:+ t) sep (S n)) = Some (piece +:+ t).
Proof.
  intros Ht. induction n as [|n IH]; intros s piece.
  - by intros [= <-].
  - rewrite !SplitN_SS. destruct (Cut s sep) as [[x y]|] eqn:Hcut.
    + rewrite (Cut_append_l _ t _ _ _ Hcut), !last_cons.
      destruct (last (SplitN y sep (S n))) as [piece'|] eqn:Hlast.
      * intros [= <-]. by rewrite (IH y piece' Hlast).
      * destruct (SplitN_last_is_Some n sep y) as [piece' Hsome]. congruence.
    + intros [= <-]. rewrite (Cut_append_None _ _ _ Hcut).
      apply Cut_None in Ht. by rewrite Ht.
Qed.

Lemma append_String_not_empty (a b : string) (x : ascii) : a +:+ String x b ≠ "".
Proof. by destruct a. Qed.

(** An image that [shouldPinImage] accepts is refused once a digest with
    a [':'], not followed by [latest], is appended to it. *)
Lemma shouldPinImage_at_digest (img digest a b : string) :
  shouldPinImage img = true →
  ContainsByte digest "/" = false →
  Cut digest ":" = Some (a, b) → b ≠ "latest" →
  shouldPinImage (img +:+ "@" +:+ digest) = false.
Proof.
  intros Hpin Hslash Hcut Hb.
  pose proof (shouldPinImage_no_panic img) as Himg.
  unfold shouldPinImage, shouldPinImage_checked in *.
  rewrite Nat.sub_1_r, <-last_lookup in *.
  destruct (last (SplitN img "/" 3)) as [piece|] eqn:Hlast; [|done].
  assert (ContainsByte ("@" +:+ digest) "/" = false) as Hsuffix
    by (by rewrite append_String, append_empty_l).
  rewrite (SplitN_last_append 2 "/" ("@" +:+ digest) Hsuffix img piece Hlast).
  cbn zeta in *. rewrite SplitN_2 in *.
  rewrite append_String, append_empty_l.
  destruct (Cut piece ":") as [[x y]|] eqn:Hpiece.
  - rewrite (Cut_append_l _ _ _ _ _ Hpiece). simpl in *.
    rewrite bool_decide_eq_true in Hpin. subst y.
    apply bool_decide_eq_false. intros Heq.
    by apply append_self_inv in Heq.
  - rewrite (Cut_append_None _ _ _ Hpiece). simpl. rewrite Hcut. simpl.
    by apply bool_decide_eq_false.
Qed.

(** X5.  When [pullImage] has pinned an image to a digest that has no
    ['/'] and has a [':'] not followed by [latest] (as in [sha256:...]),
    the configuration it leaves carries the image at the digest as its
    effective image, for which [shouldPinImage] is false; a later
    [pullImage] of that configuration whose pull succeeds calls the store
    no more and leaves the configuration as it is. *)
Theorem pinned_image_stays `{Collaborators} (c : NodeContainerConfig)
    (p : DockerProvisioner) (log log1 : list call) (output a b : string) :
  pullWithRetry p (image c) 3 log = (output, None, log1) →
  shouldPinImage (image c) = true →
  ContainsByte (GetImageDigest output).1 "/" = false →
  Cut (GetImageDigest output).1 ":" = Some (a, b) →
  b ≠ "latest" →
  let pinned := image c +:+ "@" +:+ (GetImageDigest output).1 in
  let c' := (pullImage c p log).1.1.1 in
  c' = set_PinnedImage c pinned
  ∧ image c' = pinned
  ∧ shouldPinImage (image c') = false
  ∧ ∀ log' output' log1',
      pullWithRetry p (image c') 3 log' = (output', None, log1') →
      pullImage c' p log' = (c', pinned, None, log1').
Proof.
  intros Hpull Hpin Hslash Hcut Hb pinned c'.
  assert ((GetImageDigest output).1 ≠ "") as Hdigest.
  { intros Heq. by rewrite Heq in Hcut. }
  assert (c' = set_PinnedImage c pinned) as Hc'.
  { subst c'. rewrite pullImage_unfold, Hpull, Hpin.
    assert (pin_candidate (image c) output = pinned) as ->.
    { unfold pin_candidate. cbn zeta. by rewrite decide_True. }
    rewrite decide_True; [done|]. intros Heq. by apply append_self_inv in Heq. }
  assert (image c' = pinned) as Himage.
  { rewrite Hc'. unfold image. simpl. rewrite decide_True; [done|].
    apply append_String_not_empty. }
  assert (shouldPinImage (image c') = false) as Hkept.
  { rewrite Himage. by apply (shouldPinImage_at_digest _ _ a b). }
  split; [done|]. split; [done|]. split; [done|].
  intros log' output' log1' Hpull'.
  by rewrite pullImage_unfold, Hpull', Hkept, Himage.
Qed.

Lemma pinned_image_stays_witness :
  shouldPinImage
    (image (pullImage
              (H := scripted [succeeds "Digest: sha256:0a1b"] ("sha256:0a1b", None))
              (big_sibling "tsuru/bs") anonymous []).1.1.1)
  = false.
Proof.
  refine (proj1 (proj2 (proj2 (pinned_image_stays
            (H := scripted [succeeds "Digest: sha256:0a1b"] ("sha256:0a1b", None))
            (big_sibling "tsuru/bs") anonymous []
            [PullImage "tsuru/bs" (RegistryAuthConfig anonymous)]
            "Digest: sha256:0a1b" "sha256" "0a1b" _ _ _ _ _)))).
  - reflexivity.
  - reflexivity.
  - reflexivity.
  - reflexivity.
  - discriminate.
Defined.

(** ** Lifecycle manager: before the first creation, and after the start *)

Section CreateEnds.
Context `{Collaborators}.

Lemma create_unfold (c : NodeContainerConfig) (dockerEndpoint poolName : string)
    (p : DockerProvisioner) (relaunch : bool) (log : list call) :
  create c dockerEndpoint poolName p relaunch log =
    match reply_err (answer log (NewClient dockerEndpoint)) with
    | Some e => (c, Some e, log ++ [NewClient dockerEndpoint])
    | None =>
        let '(c1, img, err, log2) := pullImage c p (log ++ [NewClient dockerEndpoint]) in
        match err with
        | Some e => (set_Image c1 img, Some e, log2)
        | None => create c dockerEndpoint poolName p relaunch log
        end
    end.
Proof.
  unfold create at 1. unfold dockerClient, invoke, mbind, M_bind, mret, M_ret.
  destruct (reply_err (answer log (NewClient dockerEndpoint))) eqn:Hclient; [done|].
  destruct (pullImage c p (log ++ [NewClient dockerEndpoint]))
    as [[[c1 img] err] log2] eqn:Hpull.
  destruct err as [e|]; [done|].
  unfold create, dockerClient, invoke, mbind, M_bind, mret, M_ret.
  by rewrite Hclient, Hpull.
Qed.

Lemma pullWithRetry_all_fail (p : DockerProvisioner) (img : string) (maxTries : Z)
    (log : list call) :
  (∀ k, (k < Z.to_nat maxTries)%nat →
        reply_err (pull_attempt log img (RegistryAuthConfig p) k) ≠ None) →
  pullWithRetry p img maxTries log
  = ("",
     match Z.to_nat maxTries with
     | O => None
     | S t => reply_err (pull_attempt log img (RegistryAuthConfig p) t)
     end,
     log ++ replicate (Z.to_nat maxTries) (PullImage img (RegistryAuthConfig p))).
Proof.
  intros Hfail. unfold pullWithRetry.
  pose proof (pullWithRetry_loop_failure log img (RegistryAuthConfig p)
                (Z.to_nat maxTries) 0 None Hfail) as Hloop.
  simpl in Hloop. by rewrite app_nil_r in Hloop.
Qed.

(** X6.  [create] that cannot make its client returns the client's
    error at once; [create] whose three pulls all fail returns the error
    of the third, and leaves the configuration with an empty
    [Config.Image]; in both cases no container is created, removed or
    started. *)
Theorem create_without_image (c : NodeContainerConfig)
    (dockerEndpoint poolName : string) (p : DockerProvisioner) (relaunch : bool)
    (log : list call) :
  let client := NewClient dockerEndpoint in
  let pull := PullImage (image c) (RegistryAuthConfig p) in
  let attempt := pull_attempt (log ++ [client]) (image c) (RegistryAuthConfig p) in
  (∀ e, reply_err (answer log client) = Some e →
     create c dockerEndpoint poolName p relaunch log = (c, Some e, log ++ [client]))
  ∧ (reply_err (answer log client) = None →
     (∀ k, (k < 3)%nat → reply_err (attempt k) ≠ None) →
     create c dockerEndpoint poolName p relaunch log
     = (set_Image c "", reply_err (attempt 2%nat), log ++ client :: replicate 3 pull)
     ∧ is_Some (reply_err (attempt 2%nat))).
Proof.
  intros client pull attempt. split.
  - intros e He. rewrite create_unfold. fold client. by rewrite He.
  - intros Hclient Hfail. rewrite create_unfold. fold client. rewrite Hclient.
    rewrite pullImage_unfold.
    rewrite (pullWithRetry_all_fail p (image c) 3 (log ++ [client]) Hfail).
    change (Z.to_nat 3) with 3%nat. cbn iota. fold attempt. pose proof (Hfail 2%nat ltac:(lia)) as Hlast. fold attempt in Hlast.
    destruct (reply_err (attempt 2%nat)) as [e|] eqn:He; [|done].
    split; [|by eexists]. by rewrite <-(assoc_L (++)).
Qed.

(** X7.  When the pull succeeds and the store refuses the update of
    [PinnedImage], [create] returns the store's error and creates no
    container: its last call is the update. *)
Theorem create_blocked_by_store (c : NodeContainerConfig)
    (dockerEndpoint poolName : string) (p : DockerProvisioner) (relaunch : bool)
    (log log1 : list call) (output : string) (e : error) :
  let client := NewClient dockerEndpoint in
  let value := pin_candidate (image c) output in
  let store := SetField (configFor (Name c)) "" "PinnedImage" value in
  reply_err (answer log client) = None →
  pullWithRetry p (image c) 3 (log ++ [client]) = (output, None, log1) →
  shouldPinImage (image c) = true →
  (GetImageDigest output).1 ≠ "" ∨ image c ≠ "" →
  reply_err (answer log1 store) = Some e →
  create c dockerEndpoint poolName p relaunch log
  = (set_Image (set_PinnedImage c value) (image c), Some e, log1 ++ [store]).
Proof.
  intros client value store Hclient Hpull Hpin Hdiffers Hstore.
  subst client value store.
  rewrite create_unfold, Hclient, pullImage_unfold, Hpull, Hpin.
  rewrite decide_True by (by apply pin_candidate_differs).
  cbn zeta. by rewrite Hstore.
Qed.

End CreateEnds.

Lemma create_without_image_witness :
  create
    (H := scripted [succeeds ""; fails (ErrorString "timeout");
                    fails (ErrorString "timeout"); fails (ErrorString "not found")]
            no_digest)
    (big_sibling "tsuru/bs:v1") "tcp://10.0.0.1:2375" "dev" anonymous true []
  = (set_Image (big_sibling "tsuru/bs:v1") "", Some (ErrorString "not found"),
     NewClient "tcp://10.0.0.1:2375"
       :: replicate 3 (PullImage "tsuru/bs:v1" (RegistryAuthConfig anonymous))).
Proof.
  refine (proj1 (proj2 (create_without_image
            (H := scripted [succeeds ""; fails (ErrorString "timeout");
                            fails (ErrorString "timeout");
                            fails (ErrorString "not found")] no_digest)
            (big_sibling "tsuru/bs:v1") "tcp://10.0.0.1:2375" "dev" anonymous true [])
          _ _)).
  - reflexivity.
  - intros [|[|[|k]]] Hk; [discriminate|discriminate|discriminate|lia].
Defined.

Lemma create_blocked_by_store_witness :
  create
    (H := scripted [succeeds ""; succeeds "Digest: sha256:0a1b";
                    fails (ErrorString "no reachable servers")] ("sha256:0a1b", None))
    (big_sibling "tsuru/bs") "tcp://10.0.0.1:2375" "dev" anonymous false []
  = (set_Image (set_PinnedImage (big_sibling "tsuru/bs") "tsuru/bs@sha256:0a1b") "tsuru/bs",
     Some (ErrorString "no reachable servers"),
     [NewClient "tcp://10.0.0.1:2375";
      PullImage "tsuru/bs" (RegistryAuthConfig anonymous);
      SetField (configFor "big-sibling") "" "PinnedImage" "tsuru/bs@sha256:0a1b"]).
Proof.
  refine (create_blocked_by_store
            (H := scripted [succeeds ""; succeeds "Digest: sha256:0a1b";
                            fails (ErrorString "no reachable servers")]
                    ("sha256:0a1b", None))
            (big_sibling "tsuru/bs") "tcp://10.0.0.1:2375" "dev" anonymous false []
            [NewClient "tcp://10.0.0.1:2375";
             PullImage "tsuru/bs" (RegistryAuthConfig anonymous)]
            "Digest: sha256:0a1b" (ErrorString "no reachable servers") _ _ _ _ _).
  - reflexivity.
  - reflexivity.
  - reflexivity.
  - left. discriminate.
  - reflexivity.
Defined.


Section CreateSucceeds.
Context `{Collaborators}.

(** The configuration with which [create] gets to its first
    [CreateContainer]. *)
Lemma before_CreateContainer_config (c c1 : NodeContainerConfig)
    (dockerEndpoint : string) (p : DockerProvisioner) (log log1 : list call) :
  before_CreateContainer c dockerEndpoint p log = Some (c1, log1) →
  Name c1 = Name c
  ∧ HostConfig_ c1 = HostConfig_ c
  ∧ Config_ c1 = mkConfig (image c) (("DOCKER_ENDPOINT=" +:+ dockerEndpoint)
                                       :: Env (Config_ c)) (Cmd (Config_ c)).
Proof.
  unfold before_CreateContainer, dockerClient, invoke, mbind, M_bind, mret, M_ret.
  destruct (reply_err (answer log (NewClient dockerEndpoint))); [done|].
  rewrite pullImage_unfold.
  destruct (pullWithRetry p (image c) 3 (log ++ [NewClient dockerEndpoint]))
    as [[output err] log2].
  destruct err as [e|]; [done|].
  destruct (shouldPinImage (image c)); [|by intros [= <- <-]].
  destruct (decide (pin_candidate (image c) output ≠ image c)); [|by intros [= <- <-]].
  cbn zeta. destruct (reply_err (answer log2 _)); [done|]. by intros [= <- <-].
Qed.

(** X8.  [create] returns [nil] only after these last two calls: a
    [CreateContainer] under the configuration's name, with the effective
    image and the endpoint in front of the environment, answered without
    error or with container-already-exists, and then [StartContainer],
    answered without error or with an already-running error.  The
    configuration it leaves is the one the container was created from. *)
Theorem create_nil_after_start (c c' : NodeContainerConfig)
    (dockerEndpoint poolName : string) (p : DockerProvisioner) (relaunch : bool)
    (log log' : list call) :
  create c dockerEndpoint poolName p relaunch log = (c', None, log') →
  let config := mkConfig (image c) (("DOCKER_ENDPOINT=" +:+ dockerEndpoint)
                                      :: Env (Config_ c)) (Cmd (Config_ c)) in
  let creation := CreateContainer (Name c) (HostConfig_ c) config in
  let start := StartContainer (Name c) (HostConfig_ c) in
  Name c' = Name c ∧ HostConfig_ c' = HostConfig_ c ∧ Config_ c' = config
  ∧ ∃ l, log' = l ++ [creation; start]
         ∧ (reply_err (answer l creation) = None
            ∨ reply_err (answer l creation) = Some ErrContainerAlreadyExists)
         ∧ (reply_err (answer (l ++ [creation]) start) = None
            ∨ ∃ ID, reply_err (answer (l ++ [creation]) start)
                    = Some (ContainerAlreadyRunning ID)).
Proof.
  intros Hcreate config creation start.
  destruct (before_CreateContainer c dockerEndpoint p log) as [[c1 log1]|] eqn:Hbefore;
    last first.
  { pose proof (create_before_CreateContainer c dockerEndpoint poolName p relaunch log
                  Hbefore) as [e He].
    rewrite Hcreate in He. done. }
  destruct (before_CreateContainer_config _ _ _ _ _ _ Hbefore) as (Hname & Hhost & Hconfig).
  pose proof (create_from_CreateContainer c dockerEndpoint poolName p relaunch log
                c1 log1 Hbefore) as Hfrom.
  cbn zeta in Hfrom. rewrite Hcreate, Hname, Hhost, Hconfig in Hfrom.
  fold config creation start in Hfrom.
  assert (∀ err, start_result err = None →
                 err = None ∨ ∃ ID, err = Some (ContainerAlreadyRunning ID)) as Hstart.
  { intros [[]|]; simpl; try done; eauto. }
  destruct (relaunch && bool_decide (reply_err (answer log1 creation)
                                     = Some ErrContainerAlreadyExists)).
  - destruct (reply_err (answer (log1 ++ [creation]) _)) as [e|]; [done|].
    destruct (reply_err (answer ((log1 ++ [creation]) ++ _) creation)) as [e|] eqn:Hsecond.
    + destruct (decide (e ≠ ErrContainerAlreadyExists)) as [Hne|Heq]; [done|].
      apply dec_stable in Heq as ->.
      injection Hfrom as <- Hs ->. repeat split; try done.
      eexists. split; [by rewrite <-(assoc_L (++) _ [creation] [start])|].
      split; [by right|]. by apply Hstart.
    + injection Hfrom as <- Hs ->. repeat split; try done.
      eexists. split; [by rewrite <-(assoc_L (++) _ [creation] [start])|].
      split; [by left|]. by apply Hstart.
  - destruct (reply_err (answer log1 creation)) as [e|] eqn:Hfirst.
    + destruct (decide (e ≠ ErrContainerAlreadyExists)) as [Hne|Heq]; [done|].
      apply dec_stable in Heq as ->.
      injection Hfrom as <- Hs ->. repeat split; try done.
      eexists. split; [by rewrite <-(assoc_L (++) _ [creation] [start])|].
      split; [by right|]. by apply Hstart.
    + injection Hfrom as <- Hs ->. repeat split; try done.
      eexists. split; [by rewrite <-(assoc_L (++) _ [creation] [start])|].
      split; [by left|]. by apply Hstart.
Qed.

End CreateSucceeds.

Lemma create_nil_after_start_witness :
  ∃ l, [NewClient "tcp://10.0.0.1:2375";
        PullImage "tsuru/bs:v1" (RegistryAuthConfig anonymous);
        CreateContainer "big-sibling" (mkHostConfig [] "host" false)
          (mkConfig "tsuru/bs:v1" ["DOCKER_ENDPOINT=tcp://10.0.0.1:2375"; "LOG_LEVEL=info"] []);
        StartContainer "big-sibling" (mkHostConfig [] "host" false)]
       = l ++ [CreateContainer "big-sibling" (mkHostConfig [] "host" false)
                 (mkConfig "tsuru/bs:v1"
                    ["DOCKER_ENDPOINT=tcp://10.0.0.1:2375"; "LOG_LEVEL=info"] []);
               StartContainer "big-sibling" (mkHostConfig [] "host" false)].
Proof.
  destruct (create_nil_after_start
              (H := scripted [] no_digest)
              (big_sibling "tsuru/bs:v1")
              (set_Env (big_sibling "tsuru/bs:v1")
                 ["DOCKER_ENDPOINT=tcp://10.0.0.1:2375"; "LOG_LEVEL=info"])
              "tcp://10.0.0.1:2375" "dev" anonymous false []
              [NewClient "tcp://10.0.0.1:2375";
               PullImage "tsuru/bs:v1" (RegistryAuthConfig anonymous);
               CreateContainer "big-sibling" (mkHostConfig [] "host" false)
                 (mkConfig "tsuru/bs:v1"
                    ["DOCKER_ENDPOINT=tcp://10.0.0.1:2375"; "LOG_LEVEL=info"] []);
               StartContainer "big-sibling" (mkHostConfig [] "host" false)]
              eq_refl) as (_ & _ & _ & l & Hl & _).
  exists l. exact Hl.
Defined.

(** ** Lifecycle manager: the calls of one [create] *)

Section CreateCalls.
Context `{Collaborators}.

Lemma pullWithRetry_loop_log (tries : nat) (img : string) (auth : AuthConfiguration) :
  ∀ buf err log,
    ∃ k, (k ≤ tries)%nat
         ∧ (pullWithRetry_loop tries img auth buf err log).2
           = log ++ replicate k (PullImage img auth).
Proof.
  induction tries as [|tries IH]; intros buf err log.
  - exists 0%nat. split; [done|]. simpl. by rewrite app_nil_r.
  - rewrite pullWithRetry_loop_S. cbn zeta.
    destruct (reply_err (answer log (PullImage img auth))) as [e|].
    + destruct (IH (buf +:+ reply_out (answer log (PullImage img auth))) (Some e)
                  (log ++ [PullImage img auth])) as (k & Hk & ->).
      exists (S k). split; [lia|]. by rewrite <-(assoc_L (++)).
    + exists 1%nat. split; [lia|done].
Qed.

Lemma pullImage_log (c : NodeContainerConfig) (p : DockerProvisioner) (log : list call) :
  ∃ k store,
    (k ≤ 3)%nat
    ∧ (store = [] ∨ ∃ v, store = [SetField (configFor (Name c)) "" "PinnedImage" v])
    ∧ (pullImage c p log).2
      = log ++ replicate k (PullImage (image c) (RegistryAuthConfig p)) ++ store.
Proof.
  rewrite pullImage_unfold.
  destruct (pullWithRetry_loop_log (Z.to_nat 3) (image c) (RegistryAuthConfig p)
              "" None log) as (k & Hk & Hlog).
  fold (pullWithRetry p (image c) 3 log) in Hlog.
  destruct (pullWithRetry p (image c) 3 log) as [[output err] log1].
  simpl in Hlog. subst log1. change (Z.to_nat 3) with 3%nat in Hk.
  destruct err as [e|].
  { exists k, []. split; [done|]. split; [by left|]. simpl. by rewrite app_nil_r. }
  destruct (shouldPinImage (image c)).
  - destruct (decide (pin_candidate (image c) output ≠ image c)).
    + exists k, [SetField (configFor (Name c)) "" "PinnedImage"
                   (pin_candidate (image c) output)].
      split; [done|]. split; [right; by eexists|]. simpl. by rewrite <-(assoc_L (++)).
    + exists k, []. split; [done|]. split; [by left|]. simpl. by rewrite app_nil_r.
  - exists k, []. split; [done|]. split; [by left|]. simpl. by rewrite app_nil_r.
Qed.

(** X9.  The calls of one [create], in their order: the client, at most
    three pulls of the effective image, at most one update of
    [PinnedImage] in the store, and then nothing, or a creation, or a
    creation and the start, or a creation and a forced removal, followed
    or not by a second creation and then the start.  It writes nothing
    else to the store, starts nothing it has not asked to create, and
    without relaunch removes nothing. *)
Theorem create_calls (c : NodeContainerConfig) (dockerEndpoint poolName : string)
    (p : DockerProvisioner) (relaunch : bool) (log : list call) :
  let client := NewClient dockerEndpoint in
  let pull := PullImage (image c) (RegistryAuthConfig p) in
  let config := mkConfig (image c) (("DOCKER_ENDPOINT=" +:+ dockerEndpoint)
                                      :: Env (Config_ c)) (Cmd (Config_ c)) in
  let creation := CreateContainer (Name c) (HostConfig_ c) config in
  let removal := RemoveContainerOptions (Name c) true in
  let start := StartContainer (Name c) (HostConfig_ c) in
  ∃ k store life,
    (create c dockerEndpoint poolName p relaunch log).2
    = log ++ client :: replicate k pull ++ store ++ life
    ∧ (k ≤ 3)%nat
    ∧ (store = [] ∨ ∃ v, store = [SetField (configFor (Name c)) "" "PinnedImage" v])
    ∧ life ∈ [[]; [creation]; [creation; start]; [creation; removal];
              [creation; removal; creation]; [creation; removal; creation; start]]
    ∧ (relaunch = false → life ∈ [[]; [creation]; [creation; start]]).
Proof.
  intros client pull config creation removal start.
  destruct (reply_err (answer log client)) as [e|] eqn:Hclient.
  { exists 0%nat, [], []. rewrite create_unfold. fold client. rewrite Hclient.
    split; [done|]. split; [lia|]. split; [by left|].
    split; [|intros _]; apply list_elem_of_here. }
  destruct (pullImage_log c p (log ++ [client])) as (k & store & Hk & Hstore & Hlog).
  fold pull in Hlog.
  destruct (pullImage c p (log ++ [client])) as [[[c0 img] err] log2] eqn:Hpull.
  simpl in Hlog. rewrite <-(assoc_L (++)) in Hlog. simpl in Hlog.
  exists k, store.
  destruct err as [e|].
  { exists []. rewrite create_unfold. fold client. rewrite Hclient, Hpull. simpl.
    rewrite app_nil_r. split; [done|]. split; [done|]. split; [done|].
    split; [|intros _]; apply list_elem_of_here. }
  assert (∃ c1, before_CreateContainer c dockerEndpoint p log = Some (c1, log2))
    as [c1 Hbefore].
  { unfold before_CreateContainer, dockerClient, invoke, mbind, M_bind, mret, M_ret.
    fold client. rewrite Hclient, Hpull. by eexists. }
  destruct (before_CreateContainer_config _ _ _ _ _ _ Hbefore) as (Hname & Hhost & Hconfig).
  pose proof (create_from_CreateContainer c dockerEndpoint poolName p relaunch log
                c1 log2 Hbefore) as Hfrom.
  cbn zeta in Hfrom. rewrite Hname, Hhost, Hconfig in Hfrom.
  fold config creation removal start in Hfrom. rewrite Hfrom.
  assert (∀ life, log2 ++ life = log ++ client :: replicate k pull ++ store ++ life)
    as Hlife.
  { intros life. rewrite Hlog, <-(assoc_L (++)). simpl. by rewrite <-(assoc_L (++)). }
  destruct relaunch; simpl.
  - destruct (bool_decide (reply_err (answer log2 creation)
                           = Some ErrContainerAlreadyExists)).
    + destruct (reply_err (answer (log2 ++ [creation]) removal)) as [e|].
      { exists [creation; removal]. simpl.
        rewrite <-(assoc_L (++)). simpl. rewrite Hlife.
        split; [done|]. split; [done|]. split; [done|].
        split; [|done]. do 3 apply list_elem_of_further. apply list_elem_of_here. }
      destruct (reply_err (answer ((log2 ++ [creation]) ++ [removal]) creation))
        as [e|]; [destruct (decide (e ≠ ErrContainerAlreadyExists))|]; simpl.
      * exists [creation; removal; creation].
        rewrite <-!(assoc_L (++)). simpl. rewrite Hlife.
        split; [done|]. split; [done|]. split; [done|].
        split; [|done]. do 4 apply list_elem_of_further. apply list_elem_of_here.
      * exists [creation; removal; creation; start].
        rewrite <-!(assoc_L (++)). simpl. rewrite Hlife.
        split; [done|]. split; [done|]. split; [done|].
        split; [|done]. do 5 apply list_elem_of_further. apply list_elem_of_here.
      * exists [creation; removal; creation; start].
        rewrite <-!(assoc_L (++)). simpl. rewrite Hlife.
        split; [done|]. split; [done|]. split; [done|].
        split; [|done]. do 5 apply list_elem_of_further. apply list_elem_of_here.
    + destruct (reply_err (answer log2 creation)) as [e|];
        [destruct (decide (e ≠ ErrContainerAlreadyExists))|]; simpl.
      * exists [creation]. rewrite Hlife.
        split; [done|]. split; [done|]. split; [done|].
        split; [|done]. apply list_elem_of_further, list_elem_of_here.
      * exists [creation; start]. rewrite <-!(assoc_L (++)). simpl. rewrite Hlife.
        split; [done|]. split; [done|]. split; [done|].
        split; [|done]. do 2 apply list_elem_of_further. apply list_elem_of_here.
      * exists [creation; start]. rewrite <-!(assoc_L (++)). simpl. rewrite Hlife.
        split; [done|]. split; [done|]. split; [done|].
        split; [|done]. do 2 apply list_elem_of_further. apply list_elem_of_here.
  - destruct (reply_err (answer log2 creation)) as [e|];
      [destruct (decide (e ≠ ErrContainerAlreadyExists))|]; simpl.
    + exists [creation]. rewrite Hlife.
      split; [done|]. split; [done|]. split; [done|].
      split; [|intros _]; apply list_elem_of_further, list_elem_of_here.
    + exists [creation; start]. rewrite <-!(assoc_L (++)). simpl. rewrite Hlife.
      split; [done|]. split; [done|]. split; [done|].
      split; [|intros _]; do 2 apply list_elem_of_further; apply list_elem_of_here.
    + exists [creation; start]. rewrite <-!(assoc_L (++)). simpl. rewrite Hlife.
      split; [done|]. split; [done|]. split; [done|].
      split; [|intros _]; do 2 apply list_elem_of_further; apply list_elem_of_here.
Qed.

End CreateCalls.

(** ** Recreate orchestrator: when the call returns, and where it waits *)

(** X10.  With the configuration names and the nodes obtained,
    [ensureContainersStarted] returns under some schedule exactly when
    the units report no more errors than there are nodes. *)
Theorem ensureContainersStarted_returns_iff (world : World) (p : DockerProvisioner)
    (relaunch : bool) (nodes nodes' : list Node) (confNames : list string) :
  FindAllScopedConfigNames world nodeContainerCollection = Ok confNames →
  (if decide (length nodes = 0)%nat then UnfilteredNodes world else Ok nodes) = Ok nodes' →
  (∃ sched r, ensureContainersStarted sched world p relaunch nodes = Some r)
  ↔ (length (unit_failures world p relaunch nodes' confNames) ≤ length nodes')%nat.
Proof.
  intros Hnames Hnodes. split.
  - intros (sched & r & Hr).
    rewrite (ensureContainersStarted_run sched world p relaunch nodes nodes' confNames
               Hnames Hnodes) in Hr.
    destruct (run world p relaunch nodes' confNames sched initial) as [s|] eqn:Hs; [|done].
    destruct (main s) as [i|r'] eqn:Hmain; [done|].
    destruct (run_returned world p relaunch nodes' confNames sched s r' Hs Hmain)
      as (_ & errs & Hperm & Hlen & _).
    apply Permutation_length in Hperm. lia.
  - intros Hroom.
    destruct (run_completes world p relaunch nodes' confNames Hroom
                (steps_left nodes' confNames initial) initial)
      as (sched & s & r & Hs & Hr); [done|apply consistent_initial|].
    exists sched, r.
    by rewrite (ensureContainersStarted_run sched world p relaunch nodes nodes' confNames
                  Hnames Hnodes), Hs, Hr.
Qed.

Lemma ensureContainersStarted_returns_iff_witness :
  ¬ ∃ sched r,
      ensureContainersStarted sched unreachable_engines anonymous true
        [node_in "tcp://10.0.0.1:2375" "dev"] = Some r.
Proof.
  intros Hreturns.
  apply (ensureContainersStarted_returns_iff unreachable_engines anonymous true
           [node_in "tcp://10.0.0.1:2375" "dev"] [node_in "tcp://10.0.0.1:2375" "dev"]
           ["big-sibling"; "logger"] eq_refl eq_refl) in Hreturns.
  vm_compute in Hreturns. lia.
Defined.

(** X11.  In a run of [ensureContainersStarted], until the caller has
    returned the counter of the wait group is the number of live
    goroutines, so that no [wg.Done()] brings it below zero; a goroutine
    that cannot move is at its send to [errChan] with the channel full;
    the caller cannot move only when it has returned or waits for
    goroutines that are still there. *)
Theorem goroutine_waits_only_at_full_channel (world : World) (p : DockerProvisioner)
    (relaunch : bool) (nodes : list Node) (confNames : list string)
    (sched : list pick) (s : state) :
  run world p relaunch nodes confNames sched initial = Some s →
  (∀ i, main s = Spawning i → wg s = length (goroutines s))
  ∧ (∀ k g, goroutines s !! k = Some g →
        step world p relaunch nodes confNames (PickGoroutine k) s = None →
        (∃ e, g = Sending e) ∧ length (errChan s) = length nodes)
  ∧ (step world p relaunch nodes confNames PickMain s = None →
     (∃ r, main s = Returned r)
     ∨ (∃ i, main s = Spawning i ∧ (length nodes ≤ i)%nat ∧ goroutines s ≠ [])).
Proof.
  intros Hrun.
  apply (run_consistent world p relaunch nodes confNames sched initial) in Hrun;
    [|apply consistent_initial].
  unfold consistent in Hrun. destruct s as [m gs w ch]. simpl in *.
  destruct m as [i|r].
  - destruct Hrun as (_ & -> & Hcap). split; [done|]. split.
    + intros k g Hk. simpl. rewrite Hk. simpl. unfold done. simpl.
      assert (0 < length gs)%nat as Hpos by (apply lookup_lt_Some in Hk; lia).
      destruct (length gs) as [|w] eqn:Hw; [lia|].
      destruct g as [i' j|i' j|e].
      * by destruct (decide _).
      * by destruct (recreateContainer _ _ _ _ _ _ _).
      * unfold errChan_cap. destruct (decide _) as [|Hfull]; [done|].
        intros _. split; [by eexists|lia].
    + simpl. destruct (decide (i < length nodes)%nat) as [|Hi]; [done|].
      destruct gs as [|g gs]; [done|]. intros _. right. exists i.
      split; [done|]. split; [lia|done].
  - destruct Hrun as [-> _]. split; [done|]. split.
    + intros k g Hk. by rewrite lookup_nil in Hk.
    + intros _. left. by eexists.
Qed.

(** The run of one unreachable node with two configuration names: the
    goroutine left is at its send, and the channel holds its one error. *)
Lemma goroutine_waits_only_at_full_channel_witness :
  (∃ e, Sending (ErrorString
          ("[node containers] failed to create container in tcp://10.0.0.1:2375 [dev]: "
           +:+ "cannot connect to Docker endpoint")) = Sending e)
  ∧ 1%nat = length [node_in "tcp://10.0.0.1:2375" "dev"].
Proof.
  refine (proj1 (proj2 (goroutine_waits_only_at_full_channel
            unreachable_engines anonymous true [node_in "tcp://10.0.0.1:2375" "dev"]
            ["big-sibling"; "logger"] (PickMain :: replicate 6 (PickGoroutine 0))
            (mkState (Spawning 1)
               [Sending (ErrorString
                  ("[node containers] failed to create container in "
                   +:+ "tcp://10.0.0.1:2375 [dev]: cannot connect to Docker endpoint"))]
               1
               [ErrorString
                  ("[node containers] failed to create container in "
                   +:+ "tcp://10.0.0.1:2375 [dev]: cannot connect to Docker endpoint")])
            _)) 0%nat _ _ _).
  - by vm_compute.
  - reflexivity.
  - reflexivity.
Defined.

(** ** The sort interface *)

Lemma ltb_lt (a b : string) : String.ltb a b = true ↔ String.le a b ∧ a ≠ b.
Proof.
  unfold String.le, String.ltb, String.leb.
  destruct (String.compare a b) eqn:Hc.
  - apply String.compare_eq_iff in Hc as ->. split; [done|]. by intros [_ ?].
  - split; [|done]. intros _. split; [done|]. intros ->.
    pose proof (String.compare_antisym b b) as Hb. rewrite Hc in Hb. done.
  - split; [done|]. by intros [? _].
Qed.

Lemma ltb_irrefl (a : string) : String.ltb a a = false.
Proof. apply not_true_is_false. rewrite ltb_lt. by intros [_ ?]. Qed.

Lemma ltb_trans (a b c : string) :
  String.ltb a b = true → String.ltb b c = true → String.ltb a c = true.
Proof.
  rewrite !ltb_lt. intros [Hab Hne] [Hbc Hne']. split; [by etrans|].
  intros ->. apply Hne. by apply (anti_symm String.le).
Qed.

Lemma ltb_asym (a b : string) : String.ltb a b = true → String.ltb b a = false.
Proof.
  intros Hab. apply not_true_is_false. intros Hba.
  pose proof (ltb_trans a b a Hab Hba) as Haa. by rewrite ltb_irrefl in Haa.
Qed.

Lemma ltb_total (a b : string) :
  a ≠ b → String.ltb a b = true ∨ String.ltb b a = true.
Proof.
  intros Hne. rewrite !ltb_lt.
  destruct (total String.le a b); [left|right]; split; done.
Qed.

(** X12.  On entries in range [Less] is a strict total order of the
    names: no entry is less than itself, [Less] is transitive, of two
    entries it never holds both ways, and it holds one way when their
    names differ; with an index out of range it panics. *)
Theorem Less_strict_order (l : NodeContainerConfigGroupSlice) (i j k : Z)
    (a b c : NodeContainerConfigGroup) :
  at_index l i = Some a → at_index l j = Some b → at_index l k = Some c →
  Less l i i = Some false
  ∧ (Less l i j = Some true → Less l j i = Some false)
  ∧ (Less l i j = Some true → Less l j k = Some true → Less l i k = Some true)
  ∧ (GroupName a ≠ GroupName b → Less l i j = Some true ∨ Less l j i = Some true)
  ∧ (GroupName a = GroupName b → Less l i j = Some false ∧ Less l j i = Some false)
  ∧ (∀ n, at_index l n = None → Less l n i = None ∧ Less l i n = None).
Proof.
  intros Hi Hj Hk. unfold Less. rewrite Hi, Hj, Hk.
  split; [by rewrite ltb_irrefl|].
  split; [intros [= Hab]; by rewrite (ltb_asym _ _ Hab)|].
  split; [intros [= Hab] [= Hbc]; by rewrite (ltb_trans _ _ _ Hab Hbc)|].
  split.
  { intros Hne. destruct (ltb_total _ _ Hne) as [-> | ->]; [by left|by right]. }
  split; [intros ->; by rewrite ltb_irrefl|].
  intros n ->. done.
Qed.

Lemma Less_strict_order_witness :
  Less [mkNodeContainerConfigGroup "logger" ∅; mkNodeContainerConfigGroup "big-sibling" ∅]
       1 0 = Some true.
Proof.
  destruct (Less_strict_order
              [mkNodeContainerConfigGroup "logger" ∅;
               mkNodeContainerConfigGroup "big-sibling" ∅]
              0 1 0 _ _ _ eq_refl eq_refl eq_refl)
    as (_ & _ & _ & Htotal & _).
  destruct (Htotal ltac:(discriminate)) as [Hlt|Hlt]; [discriminate Hlt|exact Hlt].
Defined.

Lemma insert_Permutation {A} (l : list A) (i : nat) (x y : A) :
  l !! i = Some y → <[i := x]> l ≡ₚ x :: delete i l.
Proof.
  revert i. induction l as [|z l IH]; intros [|i]; simpl; try done.
  intros Hi. rewrite (IH i Hi). apply perm_swap.
Qed.

Lemma at_index_Some {A} (l : list A) (i : Z) (x : A) :
  at_index l i = Some x ↔ (0 ≤ i)%Z ∧ l !! Z.to_nat i = Some x.
Proof.
  unfold at_index. destruct (decide (0 ≤ i)%Z) as [Hpos|Hneg].
  - split; [done|]. by intros [_ ?].
  - split; [done|]. by intros [? _].
Qed.

(** X13.  [Swap] on two indices in range exchanges the two entries and
    keeps every other entry, the length, and the entries up to their
    order; applied again it gives the slice back; with an index out of
    range it panics. *)
Theorem Swap_exchanges (l : NodeContainerConfigGroupSlice) (i j : Z)
    (a b : NodeContainerConfigGroup) :
  at_index l i = Some a → at_index l j = Some b →
  ∃ l', Swap l i j = Some l'
        ∧ Len l' = Len l
        ∧ l' ≡ₚ l
        ∧ at_index l' i = Some b
        ∧ at_index l' j = Some a
        ∧ (∀ k, k ≠ i → k ≠ j → at_index l' k = at_index l k)
        ∧ Swap l' i j = Some l.
Proof.
  intros Hi Hj. unfold Swap. rewrite Hi, Hj. eexists. split; [done|].
  apply at_index_Some in Hi as [Hi0 Hi]. apply at_index_Some in Hj as [Hj0 Hj].
  set (i' := Z.to_nat i) in *. set (j' := Z.to_nat j) in *.
  assert (i' < length l)%nat as Hilen by (by apply lookup_lt_Some in Hi).
  assert (j' < length l)%nat as Hjlen by (by apply lookup_lt_Some in Hj).
  assert (<[j' := a]> (<[i' := b]> l) !! j' = Some a) as Hnewj.
  { apply list_lookup_insert_eq. by rewrite length_insert. }
  assert (<[j' := a]> (<[i' := b]> l) !! i' = Some b) as Hnewi.
  { destruct (decide (i' = j')) as [Heq|Hne].
    - rewrite Heq in *. rewrite Hnewj. congruence.
    - rewrite list_lookup_insert_ne by done. by apply list_lookup_insert_eq. }
  split; [unfold Len; by rewrite !length_insert|].
  split.
  { assert (<[i' := b]> l !! j' = Some b) as Hmid.
    { destruct (decide (i' = j')) as [->|Hne]; [by apply list_lookup_insert_eq|].
      by rewrite list_lookup_insert_ne. }
    rewrite (insert_Permutation _ j' a b Hmid).
    rewrite (delete_Permutation l i' a Hi) at 2.
    apply perm_skip. apply (Permutation_cons_inv (a := b)).
    rewrite <-(delete_Permutation _ j' b Hmid).
    by apply insert_Permutation with (y := a). }
  split; [apply at_index_Some; by fold i'|].
  split; [apply at_index_Some; by fold j'|].
  split.
  { intros k Hki Hkj. unfold at_index. destruct (decide (0 ≤ k)%Z); [|done].
    rewrite !list_lookup_insert_ne; [done|subst i'; lia|subst j'; lia]. }
  assert (at_index (<[j' := a]> (<[i' := b]> l)) j = Some a) as ->
    by (apply at_index_Some; by fold j').
  assert (at_index (<[j' := a]> (<[i' := b]> l)) i = Some b) as ->
    by (apply at_index_Some; by fold i').
  fold i' j'. f_equal. apply list_eq. intros n.
  destruct (decide (n = j')) as [->|Hnj].
  { rewrite list_lookup_insert_eq by (by rewrite !length_insert). done. }
  rewrite list_lookup_insert_ne by done.
  destruct (decide (n = i')) as [->|Hni].
  { rewrite list_lookup_insert_eq by (by rewrite !length_insert). done. }
  by rewrite !list_lookup_insert_ne.
Qed.

Lemma Swap_exchanges_witness :
  ∃ l',
    Swap [mkNodeContainerConfigGroup "logger" ∅; mkNodeContainerConfigGroup "big-sibling" ∅]
         0 1 = Some l'
    ∧ at_index l' 0 = Some (mkNodeContainerConfigGroup "big-sibling" ∅).
Proof.
  destruct (Swap_exchanges
              [mkNodeContainerConfigGroup "logger" ∅;
               mkNodeContainerConfigGroup "big-sibling" ∅]
              0 1 _ _ eq_refl eq_refl)
    as (l' & Hswap & _ & _ & Hfirst & _).
  exists l'. split; [exact Hswap|exact Hfirst].
Defined.

(** ** Registry: listing all configurations *)

Section Listing.
Context `{Registry.Store}.

Lemma AllNodeContainers_range_S (i : nat) (n : string) (rest : list string)
    (groups : list NodeContainerConfigGroup) (log : list Registry.query) :
  Registry.AllNodeContainers_range i (n :: rest) groups log =
    match Registry.loaded_pools log (configFor n) false with
    | Failed err => (Failed err, log ++ [Registry.LoadPoolsMerge (configFor n) false])
    | Ok confMap =>
        Registry.AllNodeContainers_range (S i) rest
          (<[i := mkNodeContainerConfigGroup n confMap]> groups)
          (log ++ [Registry.LoadPoolsMerge (configFor n) false])
    end.
Proof.
  cbn [Registry.AllNodeContainers_range].
  unfold mbind, Registry.Q_bind, Registry.LoadNodeContainersForPools,
    Registry.LoadNodeContainersForPoolsMerge.
  by destruct (Registry.loaded_pools log (configFor n) false).
Qed.

(** The loop from index [i]: either every load succeeds and every slot
    from [i] on is written with the name and what was loaded for it, the
    slots below [i] being left as they are, or the loop ends at the first
    load that fails. *)
Lemma AllNodeContainers_range_spec (names : list string) :
  ∀ (i : nat) (groups : list NodeContainerConfigGroup) (log : list Registry.query),
    (i + length names ≤ length groups)%nat →
    match Registry.AllNodeContainers_range i names groups log with
    | (Ok groups', log') =>
        log' = log ++ Registry.loads names
        ∧ length groups' = length groups
        ∧ (∀ k, (k < i)%nat → groups' !! k = groups !! k)
        ∧ ∀ j n, names !! j = Some n →
            ∃ pools,
              Registry.loaded_pools (log ++ Registry.loads (take j names))
                (configFor n) false = Ok pools
              ∧ groups' !! (i + j)%nat = Some (mkNodeContainerConfigGroup n pools)
    | (Failed err, log') =>
        ∃ j n, names !! j = Some n
          ∧ log' = log ++ Registry.loads (take (S j) names)
          ∧ Registry.loaded_pools (log ++ Registry.loads (take j names))
              (configFor n) false = Failed err
          ∧ ∀ j' n', (j' < j)%nat → names !! j' = Some n' →
              ∃ pools, Registry.loaded_pools (log ++ Registry.loads (take j' names))
                         (configFor n') false = Ok pools
    end.
Proof.
  induction names as [|n rest IH]; intros i groups log Hlen.
  { simpl. rewrite app_nil_r. split; [done|]. split; [done|]. split; [done|].
    by intros j n. }
  rewrite AllNodeContainers_range_S.
  destruct (Registry.loaded_pools log (configFor n) false) as [pools|err] eqn:Hload.
  - specialize (IH (S i) (<[i := mkNodeContainerConfigGroup n pools]> groups)
                   (log ++ [Registry.LoadPoolsMerge (configFor n) false])).
    rewrite length_insert in IH. simpl in Hlen. specialize (IH ltac:(lia)).
    destruct (Registry.AllNodeContainers_range _ _ _ _) as [[groups'|err] log'].
    + destruct IH as (-> & Hgroups & Hbelow & Hslots). split.
      { by rewrite <-(assoc_L (++)). }
      split; [done|]. split.
      { intros k Hk. rewrite (Hbelow k) by lia. apply list_lookup_insert_ne. lia. }
      intros [|j] n' Hn'.
      * injection Hn' as <-. exists pools. simpl. rewrite app_nil_r. split; [done|].
        rewrite Nat.add_0_r, (Hbelow i) by lia. apply list_lookup_insert_eq. lia.
      * destruct (Hslots j n' Hn') as (pools' & Hpools' & Hslot).
        exists pools'. simpl. rewrite <-(assoc_L (++)) in Hpools'. split; [done|].
        by replace (i + S j)%nat with (S i + j)%nat by lia.
    + destruct IH as (j & n' & Hn' & -> & Hfail & Hbefore).
      exists (S j), n'. split; [done|]. split.
      { simpl. by rewrite <-(assoc_L (++)). }
      split; [simpl; by rewrite <-(assoc_L (++)) in Hfail|].
      intros [|j'] n'' Hj' Hn''.
      * injection Hn'' as <-. exists pools. simpl. by rewrite app_nil_r.
      * destruct (Hbefore j' n'' ltac:(lia) Hn'') as (pools' & Hpools').
        exists pools'. simpl. by rewrite <-(assoc_L (++)) in Hpools'.
  - exists 0%nat, n. split; [done|]. split; [done|]. simpl. rewrite app_nil_r.
    split; [done|]. intros j' n' Hj'. lia.
Qed.

(** X14.  When [AllNodeContainers] returns without error, the store
    has listed the configuration names, the result has one group per
    name, in the order of the names, each group holding what the load of
    its name without merge returned, and the queries made are the listing
    followed by one such load per name, in that order. *)
Theorem AllNodeContainers_groups (log log' : list Registry.query)
    (groups : list NodeContainerConfigGroup) :
  Registry.AllNodeContainers log = (Ok groups, log') →
  ∃ confNames,
    Registry.config_names log nodeContainerCollection = Ok confNames
    ∧ GroupName <$> groups = confNames
    ∧ log' = log ++ Registry.FindAllScopedConfigNames nodeContainerCollection
                 :: Registry.loads confNames
    ∧ ∀ j n, confNames !! j = Some n →
        ∃ pools,
          Registry.loaded_pools
            (log ++ Registry.FindAllScopedConfigNames nodeContainerCollection
                 :: Registry.loads (take j confNames))
            (configFor n) false = Ok pools
          ∧ groups !! j = Some (mkNodeContainerConfigGroup n pools).
Proof.
  unfold Registry.AllNodeContainers.
  destruct (Registry.config_names log nodeContainerCollection) as [confNames|err];
    [|done].
  pose proof (AllNodeContainers_range_spec confNames 0
                (replicate (length confNames) (mkNodeContainerConfigGroup "" ∅))
                (log ++ [Registry.FindAllScopedConfigNames nodeContainerCollection]))
    as Hloop.
  rewrite length_replicate in Hloop. specialize (Hloop ltac:(lia)).
  intros Hresult. rewrite Hresult in Hloop.
  destruct Hloop as (-> & Hlen & _ & Hslots). rewrite ?length_replicate in Hlen.
  exists confNames. split; [done|].
  assert (∀ j n, confNames !! j = Some n →
            ∃ pools,
              Registry.loaded_pools
                (log ++ Registry.FindAllScopedConfigNames nodeContainerCollection
                     :: Registry.loads (take j confNames))
                (configFor n) false = Ok pools
              ∧ groups !! j = Some (mkNodeContainerConfigGroup n pools)) as Hgroups.
  { intros j n Hn. destruct (Hslots j n Hn) as (pools & Hpools & Hslot).
    exists pools. by rewrite <-(assoc_L (++)) in Hpools. }
  split; [|split; [by rewrite <-(assoc_L (++))|done]].
  apply list_eq. intros j. rewrite list_lookup_fmap.
  destruct (confNames !! j) as [n|] eqn:Hn.
  - destruct (Hgroups j n Hn) as (pools & _ & ->). done.
  - apply lookup_ge_None in Hn. rewrite lookup_ge_None_2 by lia. done.
Qed.

(** X15.  When [AllNodeContainers] returns an error, either the listing
    of the names failed with it and nothing was loaded, or the load of
    one name failed with it after the loads of all names before it had
    succeeded, and no name after it was loaded; no group is returned. *)
Theorem AllNodeContainers_first_error (log log' : list Registry.query) (err : error) :
  Registry.AllNodeContainers log = (Failed err, log') →
  (Registry.config_names log nodeContainerCollection = Failed err
   ∧ log' = log ++ [Registry.FindAllScopedConfigNames nodeContainerCollection])
  ∨ ∃ confNames j n,
      Registry.config_names log nodeContainerCollection = Ok confNames
      ∧ confNames !! j = Some n
      ∧ log' = log ++ Registry.FindAllScopedConfigNames nodeContainerCollection
                   :: Registry.loads (take (S j) confNames)
      ∧ Registry.loaded_pools
          (log ++ Registry.FindAllScopedConfigNames nodeContainerCollection
               :: Registry.loads (take j confNames))
          (configFor n) false = Failed err
      ∧ ∀ j' n', (j' < j)%nat → confNames !! j' = Some n' →
          ∃ pools,
            Registry.loaded_pools
              (log ++ Registry.FindAllScopedConfigNames nodeContainerCollection
                   :: Registry.loads (take j' confNames))
              (configFor n') false = Ok pools.
Proof.
  unfold Registry.AllNodeContainers.
  destruct (Registry.config_names log nodeContainerCollection) as [confNames|err'].
  - pose proof (AllNodeContainers_range_spec confNames 0
                  (replicate (length confNames) (mkNodeContainerConfigGroup "" ∅))
                  (log ++ [Registry.FindAllScopedConfigNames nodeContainerCollection]))
      as Hloop.
    rewrite length_replicate in Hloop. specialize (Hloop ltac:(lia)).
    intros Hresult. rewrite Hresult in Hloop.
    destruct Hloop as (j & n & Hn & -> & Hfail & Hbefore).
    right. exists confNames, j, n. rewrite <-(assoc_L (++)) in Hfail.
    split; [done|]. split; [done|]. split; [by rewrite <-(assoc_L (++))|].
    split; [done|]. intros j' n' Hj' Hn'.
    destruct (Hbefore j' n' Hj' Hn') as (pools & Hpools).
    exists pools. by rewrite <-(assoc_L (++)) in Hpools.
  - intros [= <- <-]. by left.
Qed.

End Listing.

(** Two names, both loaded: two groups, in the order of the names. *)
Lemma AllNodeContainers_groups_witness :
  ∃ confNames,
    Registry.config_names
      (Store := Registry.scripted_store ["big-sibling"; "logger"] []) []
      nodeContainerCollection = Ok confNames
    ∧ GroupName <$> [mkNodeContainerConfigGroup "big-sibling" ∅;
                     mkNodeContainerConfigGroup "logger" ∅] = confNames.
Proof.
  destruct (AllNodeContainers_groups
              (H := Registry.scripted_store ["big-sibling"; "logger"] []) []
              (Registry.FindAllScopedConfigNames nodeContainerCollection
                 :: Registry.loads ["big-sibling"; "logger"])
              [mkNodeContainerConfigGroup "big-sibling" ∅;
               mkNodeContainerConfigGroup "logger" ∅] eq_refl)
    as (confNames & Hnames & Hgroups & _).
  exists confNames. split; [exact Hnames|exact Hgroups].
Defined.

(** Three names; the load of the second fails: the third is not loaded. *)
Lemma AllNodeContainers_first_error_witness :
  Registry.config_names
    (Store := Registry.scripted_store ["big-sibling"; "logger"; "proxy"]
                [Ok ∅; Failed (ErrorString "cursor timeout")]) []
    nodeContainerCollection = Failed (ErrorString "cursor timeout")
  ∨ ∃ confNames j n,
      Registry.config_names
        (Store := Registry.scripted_store ["big-sibling"; "logger"; "proxy"]
                    [Ok ∅; Failed (ErrorString "cursor timeout")]) []
        nodeContainerCollection = Ok confNames
      ∧ confNames !! j = Some n
      ∧ Registry.FindAllScopedConfigNames nodeContainerCollection
          :: Registry.loads ["big-sibling"; "logger"]
        = Registry.FindAllScopedConfigNames nodeContainerCollection
            :: Registry.loads (take (S j) confNames).
Proof.
  destruct (AllNodeContainers_first_error
              (H := Registry.scripted_store ["big-sibling"; "logger"; "proxy"]
                      [Ok ∅; Failed (ErrorString "cursor timeout")]) []
              (Registry.FindAllScopedConfigNames nodeContainerCollection
                 :: Registry.loads ["big-sibling"; "logger"])
              (ErrorString "cursor timeout") eq_refl)
    as [[Hnames _]|(confNames & j & n & Hnames & Hn & Hlog & _)].
  - left. exact Hnames.
  - right. exists confNames, j, n. split; [exact Hnames|]. split; [exact Hn|exact Hlog].
Defined.
